(** * MotorDriver: power control, overload monitor, DC signal and calibration

    A shallow embedding of [MotorDriver.cpp] (CommandStation-EX).  Every
    member function that the properties below talk about is a function on an
    explicit [MotorDriver] record; what the C++ code does to the hardware
    (pin writes, PWM duty, interrupt masking, diagnostics) is recorded as a
    list of [Event]s, and what it reads from the hardware (ADC sample, fault
    pin, [millis()]) comes in through an [Env] record. *)

From Stdlib Require Import ZArith List Bool Lia.
Import ListNotations.
Local Open Scope Z_scope.

(** ** Machine integers

    C integers are mathematical integers reduced to their width.  The AVR
    boards have a 16-bit [int]; ESP32, SAMD and STM32 have a 32-bit one;
    [byte] is 8 bits, [int32_t] and [unsigned long] are 32 bits on all of
    them. *)
Module CInt.

Definition wrap_unsigned (bits x : Z) : Z := x mod 2 ^ bits.

Definition wrap_signed (bits x : Z) : Z :=
  (x + 2 ^ (bits - 1)) mod 2 ^ bits - 2 ^ (bits - 1).

Definition max_signed (bits : Z) : Z := 2 ^ (bits - 1) - 1.
Definition min_signed (bits : Z) : Z := - 2 ^ (bits - 1).
Definition max_unsigned (bits : Z) : Z := 2 ^ bits - 1.

Definition wrap_byte : Z -> Z := wrap_unsigned 8.
Definition wrap_i32 : Z -> Z := wrap_signed 32.
Definition wrap_u32 : Z -> Z := wrap_unsigned 32.

End CInt.
Import CInt.

(** ** What the header and the toolchain fix

    [MotorDriver.h] and the board support package are not part of this
    file; the constants they define are gathered in one record and every
    function below is parameterised by it. *)
Inductive Arch : Type := AVR_UNO | AVR_MEGA | ESP32 | OTHER_ARCH.

Record Platform : Type := {
  arch : Arch;                      (* which [#if defined(ARDUINO_...)] holds *)
  int_bits : Z;                     (* width of [int] and [unsigned int] *)
  UNUSED_PIN : Z;
  senseScale : Z;
  TRIP_CURRENT_PROG : Z;
  POWER_SAMPLE_ON_WAIT : Z;
  POWER_SAMPLE_OFF_WAIT : Z;
  POWER_SAMPLE_OVERLOAD_WAIT : Z
}.

Definition wrap_int (P : Platform) : Z -> Z := wrap_signed (int_bits P).
Definition wrap_uint (P : Platform) : Z -> Z := wrap_unsigned (int_bits P).
Definition INT_MAX (P : Platform) : Z := max_signed (int_bits P).
Definition INT_MIN (P : Platform) : Z := min_signed (int_bits P).
Definition UINT_MAX (P : Platform) : Z := max_unsigned (int_bits P).
Definition INT32_MAX : Z := max_signed 32.

(** ** Data model *)

(** Modelled from the spec: the enumeration [POWERMODE] declared in
    [MotorDriver.h]; the states are [OFF], [ON] and [OVERLOAD], the three
    cases [checkPowerOverload] switches on. *)
Inductive POWERMODE : Type := OFF | ON | OVERLOAD.

Definition POWERMODE_eqb (a b : POWERMODE) : bool :=
  match a, b with
  | OFF, OFF | ON, ON | OVERLOAD, OVERLOAD => true
  | _, _ => false
  end.

Inductive Level : Type := LOW | HIGH.
Inductive PinDir : Type := INPUT | OUTPUT.

(** The output ports that get a shadow register. *)
Inductive Port : Type := PORTA | PORTB | PORTC.

(** The formatted messages handed to [DIAG]. *)
Inductive Diag : Type :=
| DiagFoundPort (p : Port) (pin : Z)
| DiagNoCurrentDetection
| DiagCurrentPin (pin offset trip : Z)
| DiagCommonFaultPin (trackno : Z)
| DiagFaultPinOverload (trackno : Z)
| DiagPowerOverload (trackno mA maxmA delay : Z)
| DiagPowerRestore (trackno delay : Z).

(** Everything the code does to the outside world. *)
Inductive Event : Type :=
| EvNoInterrupts
| EvInterrupts
| EvIOWrite (pin : Z) (l : Level)           (* IODevice::write *)
| EvPinMode (pin : Z) (d : PinDir)          (* pinMode *)
| EvAnalogWrite (pin duty : Z)              (* analogWrite / DCCEXanalogWrite *)
| EvAnalogWriteFrequency (pin freq : Z)     (* DCCEXanalogWriteFrequency *)
| EvTimerPrescale (timer cs : Z)            (* TCCRnB = (TCCRnB & 0xF8) | cs *)
| EvShadowRefresh (p : Port)                (* shadowPORTx = PORTx *)
| EvShadowCommit (p : Port)                 (* PORTx = shadowPORTx *)
| EvSetSignal (high : bool)                 (* setSignal *)
| EvClearResets                             (* DCCWaveform::progTrack.clearResets *)
| EvDiag (d : Diag).

(** What one call reads from the hardware. *)
Record Env : Type := {
  millis_gate : Z;      (* millis() in the rate-limit test *)
  millis_stamp : Z;     (* millis() stored in lastSampleTaken *)
  adc_read : Z;         (* ADCee::read(currentPin, fromISR) *)
  fault_low : bool      (* isLOW(fastFaultPin): the fault line is active *)
}.

(** The members of the class (declared in [MotorDriver.h]) that this file
    reads or writes.  [int] and [unsigned int] members hold integers; the
    functions below reduce what they store to the member's width. *)
Record MotorDriver : Type := {
  powerPin : Z;
  invertPower : bool;
  signalPin : Z;
  signalPin2 : Z;
  dualSignal : bool;
  shadowinout : option Port;        (* fastSignalPin.shadowinout *)
  brakePin : Z;
  invertBrake : bool;
  currentPin : Z;
  senseOffset : Z;
  faultPin : Z;
  senseFactorInternal : Z;
  tripMilliamps : Z;
  rawCurrentTripValue : Z;
  progTripValue : Z;
  isProgTrack : bool;
  (* run-time state *)
  powerMode : POWERMODE;
  lastSampleTaken : Z;
  sampleDelay : Z;
  lastCurrent : Z;
  power_sample_overload_wait : Z;
  power_good_counter : Z;
  DCinuse : bool;
  curSpeedCode : Z
}.

Definition set_powerMode (m : POWERMODE) (d : MotorDriver) : MotorDriver :=
  {| powerPin := powerPin d; invertPower := invertPower d;
     signalPin := signalPin d; signalPin2 := signalPin2 d;
     dualSignal := dualSignal d; shadowinout := shadowinout d;
     brakePin := brakePin d; invertBrake := invertBrake d;
     currentPin := currentPin d; senseOffset := senseOffset d;
     faultPin := faultPin d; senseFactorInternal := senseFactorInternal d;
     tripMilliamps := tripMilliamps d;
     rawCurrentTripValue := rawCurrentTripValue d;
     progTripValue := progTripValue d; isProgTrack := isProgTrack d;
     powerMode := m;
     lastSampleTaken := lastSampleTaken d; sampleDelay := sampleDelay d;
     lastCurrent := lastCurrent d;
     power_sample_overload_wait := power_sample_overload_wait d;
     power_good_counter := power_good_counter d;
     DCinuse := DCinuse d; curSpeedCode := curSpeedCode d |}.

Definition set_lastSampleTaken (t : Z) (d : MotorDriver) : MotorDriver :=
  {| powerPin := powerPin d; invertPower := invertPower d;
     signalPin := signalPin d; signalPin2 := signalPin2 d;
     dualSignal := dualSignal d; shadowinout := shadowinout d;
     brakePin := brakePin d; invertBrake := invertBrake d;
     currentPin := currentPin d; senseOffset := senseOffset d;
     faultPin := faultPin d; senseFactorInternal := senseFactorInternal d;
     tripMilliamps := tripMilliamps d;
     rawCurrentTripValue := rawCurrentTripValue d;
     progTripValue := progTripValue d; isProgTrack := isProgTrack d;
     powerMode := powerMode d;
     lastSampleTaken := t; sampleDelay := sampleDelay d;
     lastCurrent := lastCurrent d;
     power_sample_overload_wait := power_sample_overload_wait d;
     power_good_counter := power_good_counter d;
     DCinuse := DCinuse d; curSpeedCode := curSpeedCode d |}.

Definition set_sampleDelay (t : Z) (d : MotorDriver) : MotorDriver :=
  {| powerPin := powerPin d; invertPower := invertPower d;
     signalPin := signalPin d; signalPin2 := signalPin2 d;
     dualSignal := dualSignal d; shadowinout := shadowinout d;
     brakePin := brakePin d; invertBrake := invertBrake d;
     currentPin := currentPin d; senseOffset := senseOffset d;
     faultPin := faultPin d; senseFactorInternal := senseFactorInternal d;
     tripMilliamps := tripMilliamps d;
     rawCurrentTripValue := rawCurrentTripValue d;
     progTripValue := progTripValue d; isProgTrack := isProgTrack d;
     powerMode := powerMode d;
     lastSampleTaken := lastSampleTaken d; sampleDelay := t;
     lastCurrent := lastCurrent d;
     power_sample_overload_wait := power_sample_overload_wait d;
     power_good_counter := power_good_counter d;
     DCinuse := DCinuse d; curSpeedCode := curSpeedCode d |}.

Definition set_lastCurrent (c : Z) (d : MotorDriver) : MotorDriver :=
  {| powerPin := powerPin d; invertPower := invertPower d;
     signalPin := signalPin d; signalPin2 := signalPin2 d;
     dualSignal := dualSignal d; shadowinout := shadowinout d;
     brakePin := brakePin d; invertBrake := invertBrake d;
     currentPin := currentPin d; senseOffset := senseOffset d;
     faultPin := faultPin d; senseFactorInternal := senseFactorInternal d;
     tripMilliamps := tripMilliamps d;
     rawCurrentTripValue := rawCurrentTripValue d;
     progTripValue := progTripValue d; isProgTrack := isProgTrack d;
     powerMode := powerMode d;
     lastSampleTaken := lastSampleTaken d; sampleDelay := sampleDelay d;
     lastCurrent := c;
     power_sample_overload_wait := power_sample_overload_wait d;
     power_good_counter := power_good_counter d;
     DCinuse := DCinuse d; curSpeedCode := curSpeedCode d |}.

Definition set_power_sample_overload_wait (w : Z) (d : MotorDriver)
  : MotorDriver :=
  {| powerPin := powerPin d; invertPower := invertPower d;
     signalPin := signalPin d; signalPin2 := signalPin2 d;
     dualSignal := dualSignal d; shadowinout := shadowinout d;
     brakePin := brakePin d; invertBrake := invertBrake d;
     currentPin := currentPin d; senseOffset := senseOffset d;
     faultPin := faultPin d; senseFactorInternal := senseFactorInternal d;
     tripMilliamps := tripMilliamps d;
     rawCurrentTripValue := rawCurrentTripValue d;
     progTripValue := progTripValue d; isProgTrack := isProgTrack d;
     powerMode := powerMode d;
     lastSampleTaken := lastSampleTaken d; sampleDelay := sampleDelay d;
     lastCurrent := lastCurrent d;
     power_sample_overload_wait := w;
     power_good_counter := power_good_counter d;
     DCinuse := DCinuse d; curSpeedCode := curSpeedCode d |}.

Definition set_power_good_counter (n : Z) (d : MotorDriver) : MotorDriver :=
  {| powerPin := powerPin d; invertPower := invertPower d;
     signalPin := signalPin d; signalPin2 := signalPin2 d;
     dualSignal := dualSignal d; shadowinout := shadowinout d;
     brakePin := brakePin d; invertBrake := invertBrake d;
     currentPin := currentPin d; senseOffset := senseOffset d;
     faultPin := faultPin d; senseFactorInternal := senseFactorInternal d;
     tripMilliamps := tripMilliamps d;
     rawCurrentTripValue := rawCurrentTripValue d;
     progTripValue := progTripValue d; isProgTrack := isProgTrack d;
     powerMode := powerMode d;
     lastSampleTaken := lastSampleTaken d; sampleDelay := sampleDelay d;
     lastCurrent := lastCurrent d;
     power_sample_overload_wait := power_sample_overload_wait d;
     power_good_counter := n;
     DCinuse := DCinuse d; curSpeedCode := curSpeedCode d |}.

Definition set_DCinuse (b : bool) (d : MotorDriver) : MotorDriver :=
  {| powerPin := powerPin d; invertPower := invertPower d;
     signalPin := signalPin d; signalPin2 := signalPin2 d;
     dualSignal := dualSignal d; shadowinout := shadowinout d;
     brakePin := brakePin d; invertBrake := invertBrake d;
     currentPin := currentPin d; senseOffset := senseOffset d;
     faultPin := faultPin d; senseFactorInternal := senseFactorInternal d;
     tripMilliamps := tripMilliamps d;
     rawCurrentTripValue := rawCurrentTripValue d;
     progTripValue := progTripValue d; isProgTrack := isProgTrack d;
     powerMode := powerMode d;
     lastSampleTaken := lastSampleTaken d; sampleDelay := sampleDelay d;
     lastCurrent := lastCurrent d;
     power_sample_overload_wait := power_sample_overload_wait d;
     power_good_counter := power_good_counter d;
     DCinuse := b; curSpeedCode := curSpeedCode d |}.

Definition set_curSpeedCode (c : Z) (d : MotorDriver) : MotorDriver :=
  {| powerPin := powerPin d; invertPower := invertPower d;
     signalPin := signalPin d; signalPin2 := signalPin2 d;
     dualSignal := dualSignal d; shadowinout := shadowinout d;
     brakePin := brakePin d; invertBrake := invertBrake d;
     currentPin := currentPin d; senseOffset := senseOffset d;
     faultPin := faultPin d; senseFactorInternal := senseFactorInternal d;
     tripMilliamps := tripMilliamps d;
     rawCurrentTripValue := rawCurrentTripValue d;
     progTripValue := progTripValue d; isProgTrack := isProgTrack d;
     powerMode := powerMode d;
     lastSampleTaken := lastSampleTaken d; sampleDelay := sampleDelay d;
     lastCurrent := lastCurrent d;
     power_sample_overload_wait := power_sample_overload_wait d;
     power_good_counter := power_good_counter d;
     DCinuse := DCinuse d; curSpeedCode := c |}.

(** ** A monad for member functions

    A member function maps the object to a result, the updated object and
    the hardware operations it performed, in program order. *)
Record Outcome (A : Type) : Type := mkOutcome {
  value : A;
  state : MotorDriver;
  trace : list Event
}.
Arguments mkOutcome {A} _ _ _.
Arguments value {A} _.
Arguments state {A} _.
Arguments trace {A} _.

Definition M (A : Type) : Type := MotorDriver -> Outcome A.

Definition ret {A : Type} (a : A) : M A := fun d => mkOutcome a d [].

Definition bind {A B : Type} (m : M A) (k : A -> M B) : M B :=
  fun d =>
    match m d with
    | mkOutcome a d1 l1 =>
        match k a d1 with
        | mkOutcome b d2 l2 => mkOutcome b d2 (l1 ++ l2)
        end
    end.

Definition gets {A : Type} (f : MotorDriver -> A) : M A :=
  fun d => mkOutcome (f d) d [].

Definition modify (f : MotorDriver -> MotorDriver) : M unit :=
  fun d => mkOutcome tt (f d) [].

Definition emit (e : Event) : M unit := fun d => mkOutcome tt d [e].

Definition when (b : bool) (m : M unit) : M unit := if b then m else ret tt.

Declare Scope motor_scope.
Delimit Scope motor_scope with motor.
Notation "x <- m ;; k" := (bind m (fun x => k))
  (at level 61, m at next level, right associativity) : motor_scope.
Notation "m ;; k" := (bind m (fun _ => k))
  (at level 61, right associativity) : motor_scope.
Local Open Scope motor_scope.

Definition emits (l : list Event) : M unit := fun d => mkOutcome tt d l.

(** ** Calibration: raw ADC units and milliamps

    [unsigned int raw2mA(int raw)] and [unsigned int mA2raw(unsigned int mA)].
    The argument is first converted to the parameter's type, the product and
    the quotient are taken in [int32_t] (C division truncates toward zero,
    which is [Z.quot]), and the result is converted to [unsigned int].
    A zero divisor is undefined in C; [Z.quot] then yields 0, and the
    theorems about the conversions assume the divisor positive. *)
Definition raw2mA (P : Platform) (d : MotorDriver) (raw : Z) : Z :=
  let raw := wrap_int P raw in
  wrap_uint P
    (Z.quot (wrap_i32 (wrap_i32 raw * senseFactorInternal d)) (senseScale P)).

Definition mA2raw (P : Platform) (d : MotorDriver) (mA : Z) : Z :=
  let mA := wrap_uint P mA in
  wrap_uint P
    (Z.quot (wrap_i32 (wrap_i32 mA * senseScale P)) (senseFactorInternal d)).

(** ** setDCSignal *)

Definition taurustones : list Z :=
  [165; 175; 196; 220;
   247; 262; 294; 330;
   349; 392; 440; 494;
   523; 587; 659; 698;
   494; 440; 392; 249;
   330; 284; 262; 247;
   220; 196; 175; 165].

(** The timer prescaler adjustments of the two AVR variants. *)
Definition timer_prescale (P : Platform) (pin : Z) : list Event :=
  match arch P with
  | AVR_UNO =>
      if (pin =? 3) || (pin =? 11) then [EvTimerPrescale 2 6] else []
  | AVR_MEGA =>
      if (pin =? 9) || (pin =? 10) then [EvTimerPrescale 2 6]
      else if (pin =? 2) || (pin =? 3) || (pin =? 5) then [EvTimerPrescale 3 4]
      else if (pin =? 6) || (pin =? 7) || (pin =? 8) then [EvTimerPrescale 4 4]
      else if (pin =? 44) || (pin =? 45) || (pin =? 46)
           then [EvTimerPrescale 5 4]
      else []
  | _ => []
  end.

(** The PWM carrier frequency chosen on ESP32. *)
Definition dc_frequency (tSpeed : Z) : Z :=
  if 2 <? tSpeed then
    if tSpeed <=? 58 then nth (Z.to_nat ((tSpeed - 2) / 2)) taurustones 0
    else 131
  else 131.

Definition pwm_frequency (P : Platform) (pin tSpeed : Z) : list Event :=
  match arch P with
  | ESP32 => [EvAnalogWriteFrequency pin (dc_frequency tSpeed)]
  | _ => []
  end.

(** Lines 305-309: the duty for a 7-bit speed, as a [byte]. *)
Definition pwm_duty (invert : bool) (tSpeed : Z) : Z :=
  let pwmratio :=
    if tSpeed <=? 1 then 0
    else if 127 <=? tSpeed then 255
    else wrap_byte (2 * tSpeed) in
  if invert then wrap_byte (255 - pwmratio) else pwmratio.

(** Lines 316-338: the direction write, through the shadow register when
    the signal pin sits on a shadowed port. *)
Definition signal_write (sh : option Port) (tDir : Z) : list Event :=
  let high := negb (tDir =? 0) in
  match sh with
  | Some p =>
      [EvNoInterrupts; EvShadowRefresh p; EvSetSignal high;
       EvShadowCommit p; EvInterrupts]
  | None => [EvNoInterrupts; EvSetSignal high; EvInterrupts]
  end.

Definition setDCSignal (P : Platform) (speedcode : Z) : M unit :=
  modify (set_curSpeedCode speedcode) ;;
  modify (set_DCinuse true) ;;
  pin <- gets powerPin ;;
  emits (timer_prescale P pin) ;;
  let tSpeed := Z.land speedcode 0x7F in
  let tDir := Z.land speedcode 0x80 in
  emits (pwm_frequency P pin tSpeed) ;;
  inv <- gets invertPower ;;
  emit (EvAnalogWrite pin (pwm_duty inv tSpeed)) ;;
  sh <- gets shadowinout ;;
  emits (signal_write sh tDir).

(** ** setPower *)

Definition setPower (P : Platform) (mode : POWERMODE) : M unit :=
  let on := POWERMODE_eqb mode ON in
  pin <- gets powerPin ;;
  inv <- gets invertPower ;;
  (if on then
     emit EvNoInterrupts ;;
     emit (EvIOWrite pin (if inv then LOW else HIGH)) ;;
     emit EvInterrupts ;;
     dc <- gets DCinuse ;;
     when dc (c <- gets curSpeedCode ;; setDCSignal P c) ;;
     pt <- gets isProgTrack ;;
     when pt (emit EvClearResets)
   else
     emit EvNoInterrupts ;;
     emit (EvIOWrite pin (if inv then HIGH else LOW)) ;;
     emit EvInterrupts ;;
     dc <- gets DCinuse ;;
     when dc
       (c <- gets curSpeedCode ;;
        let s := wrap_byte c in          (* byte s = curSpeedCode; *)
        setDCSignal P 128 ;;
        modify (set_curSpeedCode s))) ;;
  modify (set_powerMode mode).

(** ** getCurrentRaw *)

Definition getCurrentRaw (P : Platform) (env : Env) : M Z :=
  cp <- gets currentPin ;;
  if cp =? UNUSED_PIN P then ret 0
  else
    off <- gets senseOffset ;;
    let current := wrap_int P (adc_read env - off) in
    let current := if current <? 0 then wrap_int P (0 - current)
                   else current in
    fp <- gets faultPin ;;
    pm <- gets powerMode ;;
    if negb (fp =? UNUSED_PIN P) && fault_low env && POWERMODE_eqb pm ON
    then ret (if current =? 0 then -1 else wrap_int P (- current))
    else ret current.

(** ** checkPowerOverload

    [commonFaultPin] is the class-wide flag; it is passed in. *)

(** Lines 413-416: the backoff kept for the next overload. *)
Definition next_overload_wait (P : Platform) (w : Z) : Z :=
  if 10000 <=? w then 10000 else wrap_uint P (w * 2).

Definition tripValue_of (useProgLimit : bool) (d : MotorDriver) : Z :=
  if useProgLimit then progTripValue d else rawCurrentTripValue d.

(** The rate limit of line 370: true when the call returns at once. *)
Definition rate_limited (env : Env) (d : MotorDriver) : bool :=
  wrap_u32 (millis_gate env - lastSampleTaken d) <? sampleDelay d.

Definition checkPowerOverload (P : Platform) (commonFaultPin : bool)
    (env : Env) (useProgLimit : bool) (trackno : Z) : M unit :=
  limited <- gets (rate_limited env) ;;
  if limited then ret tt
  else
    modify (set_lastSampleTaken (millis_stamp env)) ;;
    tripValue <- gets (tripValue_of useProgLimit) ;;
    pm <- gets powerMode ;;
    match pm with
    | OFF => modify (set_sampleDelay (POWER_SAMPLE_OFF_WAIT P))
    | ON =>
        cur <- getCurrentRaw P env ;;
        modify (set_lastCurrent cur) ;;
        when (cur <? 0)
          (modify (set_lastCurrent (wrap_int P (- cur))) ;;
           setPower P OVERLOAD ;;
           if commonFaultPin then
             lc <- gets lastCurrent ;;
             when (lc <? tripValue) (setPower P ON) ;;
             emit (EvDiag (DiagCommonFaultPin trackno))
           else
             emit (EvDiag (DiagFaultPinOverload trackno)) ;;
             lc <- gets lastCurrent ;;
             when (lc <? tripValue) (modify (set_lastCurrent tripValue))) ;;
        lc <- gets lastCurrent ;;
        if lc <? tripValue then
          modify (set_sampleDelay (POWER_SAMPLE_ON_WAIT P)) ;;
          good <- gets power_good_counter ;;
          if good <? 100 then
            modify (set_power_good_counter (wrap_uint P (good + 1)))
          else
            w <- gets power_sample_overload_wait ;;
            when (POWER_SAMPLE_OVERLOAD_WAIT P <? w)
              (modify (set_power_sample_overload_wait
                         (POWER_SAMPLE_OVERLOAD_WAIT P)))
        else
          setPower P OVERLOAD ;;
          mA <- gets (fun d => raw2mA P d lc) ;;
          maxmA <- gets (fun d => raw2mA P d tripValue) ;;
          modify (set_power_good_counter 0) ;;
          w <- gets power_sample_overload_wait ;;
          modify (set_sampleDelay w) ;;
          emit (EvDiag (DiagPowerOverload trackno mA maxmA w)) ;;
          modify (set_power_sample_overload_wait (next_overload_wait P w))
    | OVERLOAD =>
        setPower P ON ;;
        modify (set_sampleDelay (POWER_SAMPLE_ON_WAIT P)) ;;
        emit (EvDiag (DiagPowerRestore trackno (POWER_SAMPLE_ON_WAIT P)))
    end.

(** ** The constructor

    [this0] is the object as the member initialisers of the class leave it
    (the constructor body does not assign every member).  The one floating
    point operation, [sense_factor * senseScale] converted to the integer
    member, is taken as an argument. *)
Record CtorArgs : Type := {
  power_pin : Z;
  signal_pin : Z;
  signal_pin2 : Z;
  brake_pin : Z;
  current_pin : Z;
  sense_factor_scaled : Z;   (* sense_factor * senseScale, as stored *)
  trip_milliamps : Z;
  fault_pin : Z
}.

Record CtorEnv : Type := {
  signal_port : option Port;  (* the port getFastPin found, if PORTA/B/C *)
  adc_init : Z;               (* ADCee::init(currentPin) *)
  ADCmax : Z;                 (* ADCee::ADCmax() *)
  millis_now : Z
}.

Definition MotorDriver_ctor (P : Platform) (a : CtorArgs) (e : CtorEnv)
    (this0 : MotorDriver) : Outcome unit :=
  let invertPower' := power_pin a <? 0 in
  let powerPin' := if invertPower' then 0 - power_pin a else power_pin a in
  let dualSignal' := negb (signal_pin2 a =? UNUSED_PIN P) in
  let brake_used := negb (brake_pin a =? UNUSED_PIN P) in
  let invertBrake' :=
    if brake_used then brake_pin a <? 0 else invertBrake this0 in
  let brakePin' :=
    if brake_used
    then (if invertBrake' then 0 - brake_pin a else brake_pin a)
    else UNUSED_PIN P in
  let current_used := negb (current_pin a =? UNUSED_PIN P) in
  let senseOffset' :=
    if current_used then adc_init e else senseOffset this0 in
  let fault_used := negb (fault_pin a =? UNUSED_PIN P) in
  let d1 :=
    {| powerPin := powerPin'; invertPower := invertPower';
       signalPin := signal_pin a; signalPin2 := signal_pin2 a;
       dualSignal := dualSignal'; shadowinout := signal_port e;
       brakePin := brakePin'; invertBrake := invertBrake';
       currentPin := current_pin a; senseOffset := senseOffset';
       faultPin := fault_pin a;
       senseFactorInternal := sense_factor_scaled a;
       tripMilliamps := trip_milliamps a;
       rawCurrentTripValue := rawCurrentTripValue this0;
       progTripValue := progTripValue this0;
       isProgTrack := isProgTrack this0;
       powerMode := powerMode this0;
       lastSampleTaken := lastSampleTaken this0;
       sampleDelay := sampleDelay this0;
       lastCurrent := lastCurrent this0;
       power_sample_overload_wait := power_sample_overload_wait this0;
       power_good_counter := power_good_counter this0;
       DCinuse := DCinuse this0; curSpeedCode := curSpeedCode this0 |} in
  (* rawCurrentTripValue=mA2raw(trip_milliamps); *)
  let nominal := wrap_int P (mA2raw P d1 (trip_milliamps a)) in
  (* if (rawCurrentTripValue + senseOffset > ADCee::ADCmax()) *)
  let rawCurrentTripValue' :=
    if ADCmax e <? wrap_int P (nominal + senseOffset')
    then wrap_int P (ADCmax e - senseOffset')
    else nominal in
  let progTripValue' := wrap_int P (mA2raw P d1 (TRIP_CURRENT_PROG P)) in
  let d2 :=
    {| powerPin := powerPin'; invertPower := invertPower';
       signalPin := signal_pin a; signalPin2 := signal_pin2 a;
       dualSignal := dualSignal'; shadowinout := signal_port e;
       brakePin := brakePin'; invertBrake := invertBrake';
       currentPin := current_pin a; senseOffset := senseOffset';
       faultPin := fault_pin a;
       senseFactorInternal := sense_factor_scaled a;
       tripMilliamps := trip_milliamps a;
       rawCurrentTripValue := rawCurrentTripValue';
       progTripValue := progTripValue';
       isProgTrack := isProgTrack this0;
       powerMode := powerMode this0;
       lastSampleTaken := millis_now e;
       sampleDelay := 0;
       lastCurrent := lastCurrent this0;
       power_sample_overload_wait := power_sample_overload_wait this0;
       power_good_counter := power_good_counter this0;
       DCinuse := DCinuse this0; curSpeedCode := curSpeedCode this0 |} in
  let log :=
    [EvIOWrite powerPin' (if invertPower' then HIGH else LOW);
     EvPinMode (signal_pin a) OUTPUT]
    ++ match signal_port e with
       | Some p => [EvDiag (DiagFoundPort p (signal_pin a))]
       | None => []
       end
    ++ (if dualSignal' then [EvPinMode (signal_pin2 a) OUTPUT] else [])
    ++ (if brake_used then [EvPinMode brakePin' OUTPUT] else [])
    ++ (if fault_used then [EvPinMode (fault_pin a) INPUT] else [])
    ++ (if current_used
        then [EvDiag (DiagCurrentPin (current_pin a) senseOffset'
                        rawCurrentTripValue')]
        else [EvDiag DiagNoCurrentDetection]) in
  mkOutcome tt d2 log.

(** ** Sample configurations

    A 16-bit AVR build and a 32-bit build, with representative values for
    the header constants, and a main-track channel of a standard
    motor shield (power on D3, direction on D12, brake on D9, current sense
    on A0, 2.99 mA per ADC step, 2 A trip). *)
Definition avr_mega : Platform :=
  {| arch := AVR_MEGA; int_bits := 16; UNUSED_PIN := 127; senseScale := 256;
     TRIP_CURRENT_PROG := 250;
     POWER_SAMPLE_ON_WAIT := 100; POWER_SAMPLE_OFF_WAIT := 1000;
     POWER_SAMPLE_OVERLOAD_WAIT := 20 |}.

Definition esp32 : Platform :=
  {| arch := ESP32; int_bits := 32; UNUSED_PIN := 127; senseScale := 256;
     TRIP_CURRENT_PROG := 250;
     POWER_SAMPLE_ON_WAIT := 100; POWER_SAMPLE_OFF_WAIT := 1000;
     POWER_SAMPLE_OVERLOAD_WAIT := 20 |}.

(** The object before the constructor body runs. *)
Definition blank (P : Platform) : MotorDriver :=
  {| powerPin := 0; invertPower := false;
     signalPin := 0; signalPin2 := 0; dualSignal := false;
     shadowinout := None;
     brakePin := 0; invertBrake := false;
     currentPin := 0; senseOffset := 0; faultPin := 0;
     senseFactorInternal := 0; tripMilliamps := 0;
     rawCurrentTripValue := 0; progTripValue := 0; isProgTrack := false;
     powerMode := OFF; lastSampleTaken := 0; sampleDelay := 0;
     lastCurrent := 0;
     power_sample_overload_wait := POWER_SAMPLE_OVERLOAD_WAIT P;
     power_good_counter := 0;
     DCinuse := false; curSpeedCode := 0 |}.

Definition shield_main (P : Platform) (fault : Z) : CtorArgs :=
  {| power_pin := 3; signal_pin := 12; signal_pin2 := UNUSED_PIN P;
     brake_pin := 9; current_pin := 54; sense_factor_scaled := 765;
     trip_milliamps := 2000; fault_pin := fault |}.

Definition bench : CtorEnv :=
  {| signal_port := Some PORTB; adc_init := 0; ADCmax := 1023;
     millis_now := 0 |}.

(** A constructed channel, powered on. *)
Definition main_track (P : Platform) (fault : Z) : MotorDriver :=
  state (setPower P ON
           (state (MotorDriver_ctor P (shield_main P fault) bench (blank P)))).

(** The same shield with another sense factor and trip current, as the
    constructor leaves it. *)
Definition channel (P : Platform) (factor trip : Z) : MotorDriver :=
  state (MotorDriver_ctor P
           {| power_pin := 3; signal_pin := 12; signal_pin2 := UNUSED_PIN P;
              brake_pin := 9; current_pin := 54;
              sense_factor_scaled := factor;
              trip_milliamps := trip; fault_pin := UNUSED_PIN P |}
           bench (blank P)).

(** A channel with a fault pin (D4) but no current-sense pin, powered
    on. *)
Definition fault_only_track (P : Platform) : MotorDriver :=
  state (setPower P ON
           (state (MotorDriver_ctor P
                     {| power_pin := 3; signal_pin := 12;
                        signal_pin2 := UNUSED_PIN P; brake_pin := 9;
                        current_pin := UNUSED_PIN P;
                        sense_factor_scaled := 765;
                        trip_milliamps := 2000; fault_pin := 4 |}
                     bench (blank P)))).

(** The main track with a fault pin (D4) and a trip current of 3 mA, which
    is one raw step; powered on. *)
Definition low_trip_track (P : Platform) : MotorDriver :=
  state (setPower P ON
           (state (MotorDriver_ctor P
                     {| power_pin := 3; signal_pin := 12;
                        signal_pin2 := UNUSED_PIN P; brake_pin := 9;
                        current_pin := 54; sense_factor_scaled := 765;
                        trip_milliamps := 3; fault_pin := 4 |}
                     bench (blank P)))).

(** The main track in DC use, running in reverse at speed step 72. *)
Definition dc_track (P : Platform) : MotorDriver :=
  state (setDCSignal P 200 (main_track P (UNUSED_PIN P))).

Definition at_time (t sample : Z) (fault : bool) : Env :=
  {| millis_gate := t; millis_stamp := t; adc_read := sample;
     fault_low := fault |}.

(** ** Observations on a trace *)

(** The duties sent to the PWM backend, with their pin. *)
Definition pwm_writes (l : list Event) : list (Z * Z) :=
  flat_map (fun e => match e with
                     | EvAnalogWrite pin duty => [(pin, duty)]
                     | _ => []
                     end) l.

(** The levels written with [IODevice::write], with their pin. *)
Definition io_writes (l : list Event) : list (Z * Level) :=
  flat_map (fun e => match e with
                     | EvIOWrite pin lv => [(pin, lv)]
                     | _ => []
                     end) l.

(** The direction-pin writes. *)
Definition signal_writes (l : list Event) : list bool :=
  flat_map (fun e => match e with
                     | EvSetSignal high => [high]
                     | _ => []
                     end) l.

(** The overload reports: milliamps logged and the limit logged. *)
Definition overload_reports (l : list Event) : list (Z * Z) :=
  flat_map (fun e => match e with
                     | EvDiag (DiagPowerOverload _ mA maxmA _) => [(mA, maxmA)]
                     | _ => []
                     end) l.

(** A value that an [int] holds without wrapping. *)
Definition representable (P : Platform) (x : Z) : Prop :=
  INT_MIN P <= x <= INT_MAX P.

(** Milliamps to raw and back: the result does not exceed [x] and falls
    short of it by less than one raw step ([senseFactorInternal /
    senseScale] milliamps, lost by the first division) plus one (lost by
    the second). *)
Definition round_trip_close (P : Platform) (d : MotorDriver) (x : Z) : Prop :=
  let y := raw2mA P d (mA2raw P d x) in
  y <= x /\ senseScale P * (x - y) < senseFactorInternal d + senseScale P.

(** The reading one check obtains. *)
Definition reading (P : Platform) (env : Env) (d : MotorDriver) : Z :=
  value (getCurrentRaw P env d).

(** One check, keeping the object only. *)
Definition check (P : Platform) (commonFaultPin : bool) (env : Env)
    (useProgLimit : bool) (d : MotorDriver) : MotorDriver :=
  state (checkPowerOverload P commonFaultPin env useProgLimit 0 d).

(** A healthy check: not rate limited, power on, no fault indication,
    reading below the threshold. *)
Definition healthy (P : Platform) (env : Env) (useProgLimit : bool)
    (d : MotorDriver) : bool :=
  negb (rate_limited env d)
  && POWERMODE_eqb (powerMode d) ON
  && (0 <=? reading P env d)
  && (reading P env d <? tripValue_of useProgLimit d).

(** The magnitude a check works with: a negative reading only flags the
    fault pin and is negated (line 384). *)
Definition magnitude (P : Platform) (env : Env) (d : MotorDriver) : Z :=
  let r := reading P env d in
  if r <? 0 then wrap_int P (- r) else r.

(** A tripping check: not rate limited, power on, magnitude at or above
    the threshold. *)
Definition tripping (P : Platform) (env : Env) (useProgLimit : bool)
    (d : MotorDriver) : bool :=
  negb (rate_limited env d)
  && POWERMODE_eqb (powerMode d) ON
  && (tripValue_of useProgLimit d <=? magnitude P env d).

(** Successive checks, one per environment. *)
Fixpoint checks (P : Platform) (commonFaultPin useProgLimit : bool)
    (envs : list Env) (d : MotorDriver) : MotorDriver :=
  match envs with
  | [] => d
  | env :: rest =>
      checks P commonFaultPin useProgLimit rest
        (check P commonFaultPin env useProgLimit d)
  end.

(** Every check of the run is a healthy one. *)
Fixpoint all_healthy (P : Platform) (commonFaultPin useProgLimit : bool)
    (envs : list Env) (d : MotorDriver) : bool :=
  match envs with
  | [] => true
  | env :: rest =>
      healthy P env useProgLimit d
      && all_healthy P commonFaultPin useProgLimit rest
           (check P commonFaultPin env useProgLimit d)
  end.

(** A run of overloads: each trip is followed by the check that switches
    the power back on; the result lists the [sampleDelay] assigned by each
    trip.  [envs] holds one pair of environments per trip. *)
Fixpoint trip_delays (P : Platform) (commonFaultPin useProgLimit : bool)
    (envs : list (Env * Env)) (d : MotorDriver) : list Z :=
  match envs with
  | [] => []
  | (e_trip, e_restore) :: rest =>
      let d1 := check P commonFaultPin e_trip useProgLimit d in
      let d2 := check P commonFaultPin e_restore useProgLimit d1 in
      sampleDelay d1 :: trip_delays P commonFaultPin useProgLimit rest d2
  end.

(** Every pair of such a run is a tripping check followed by a check that
    is not rate limited. *)
Fixpoint all_trips (P : Platform) (commonFaultPin useProgLimit : bool)
    (envs : list (Env * Env)) (d : MotorDriver) : bool :=
  match envs with
  | [] => true
  | (e_trip, e_restore) :: rest =>
      let d1 := check P commonFaultPin e_trip useProgLimit d in
      let d2 := check P commonFaultPin e_restore useProgLimit d1 in
      tripping P e_trip useProgLimit d
      && negb (rate_limited e_restore d1)
      && all_trips P commonFaultPin useProgLimit rest d2
  end.

(** Environments for a run: the [k]-th check happens at [t0 + k * dt]. *)
Fixpoint polls (n : nat) (t0 dt sample : Z) (fault : bool) : list Env :=
  match n with
  | O => []
  | S n' => at_time t0 sample fault :: polls n' (t0 + dt) dt sample fault
  end.

Fixpoint poll_pairs (n : nat) (t0 dt sample : Z) : list (Env * Env) :=
  match n with
  | O => []
  | S n' =>
      (at_time t0 sample false, at_time (t0 + dt) sample false)
      :: poll_pairs n' (t0 + 2 * dt) dt sample
  end.


(** ** The remaining member functions *)

(** *** setBrake

    [setHIGH] and [setLOW] act on [fastBrakePin]; the operations of one
    call are listed in program order.  The call changes no member. *)
Inductive BrakeOp : Type :=
| BrNoInterrupts
| BrInterrupts
| BrSetHIGH
| BrSetLOW.

Definition setBrake (P : Platform) (on interruptContext : bool)
    (d : MotorDriver) : list BrakeOp :=
  if brakePin d =? UNUSED_PIN P then []
  else
    (if negb interruptContext then [BrNoInterrupts] else [])
    ++ [if xorb on (invertBrake d) then BrSetHIGH else BrSetLOW]
    ++ (if negb interruptContext then [BrInterrupts] else []).

(** *** canMeasureCurrent and isPWMCapable *)

Definition canMeasureCurrent (P : Platform) (d : MotorDriver) : bool :=
  negb (currentPin d =? UNUSED_PIN P).

(** [isPWMPin] is [DCCTimer::isPWMPin]. *)
Definition isPWMCapable (isPWMPin : Z -> bool) (d : MotorDriver) : bool :=
  negb (dualSignal d) && isPWMPin (signalPin d).

(** *** getFastPin

    [digitalPinToPort] and [digitalPinToBitMask] belong to the board
    support package and are passed in; [port_bits] is the width of
    [portreg_t].  The register is the port's input or output register. *)
Inductive PortRegister : Type :=
| InputRegister (port : Z)
| OutputRegister (port : Z).

Record FASTPIN : Type := {
  inout : PortRegister;
  maskHIGH : Z;
  maskLOW : Z
}.

Definition getFastPin (port_bits : Z) (digitalPinToPort : Z -> Z)
    (digitalPinToBitMask : Z -> Z) (pin : Z) (input : bool) : FASTPIN :=
  let port := digitalPinToPort pin in
  let high := digitalPinToBitMask pin in
  {| inout := if input then InputRegister port else OutputRegister port;
     maskHIGH := high;
     maskLOW := wrap_unsigned port_bits (Z.lnot high) |}.

(** *** sampleCurrentFromHW and startCurrentFromHW

    The AVR analog-to-digital converter: its registers, the bit numbers
    and the pin number [A0] that the AVR headers define, and the two
    members that cache a sample. *)
Record AdcRegisters : Type := {
  ADCSRA : Z;
  ADCL : Z;
  ADCH : Z;
  ADMUX : Z
}.

Record AvrAdc : Type := {
  ADSC : Z;
  ADIF : Z;
  REFS0 : Z;
  A0 : Z
}.

Record SampleCache : Type := {
  sampleCurrent : Z;
  sampleCurrentTimestamp : Z
}.

Definition bitSet (reg bit : Z) : Z := Z.lor reg (Z.shiftl 1 bit).

(** Returns the flag, the registers and the cache after the call. *)
Definition sampleCurrentFromHW (P : Platform) (K : AvrAdc) (millis : Z)
    (regs : AdcRegisters) (cache : SampleCache)
  : bool * AdcRegisters * SampleCache :=
  if Z.testbit (ADCSRA regs) (ADSC K) then (false, regs, cache)
  else
    let low := ADCL regs in
    let high := ADCH regs in
    (true,
     {| ADCSRA := wrap_byte (bitSet (ADCSRA regs) (ADIF K));
        ADCL := ADCL regs; ADCH := ADCH regs; ADMUX := ADMUX regs |},
     {| sampleCurrent := wrap_int P (Z.lor (Z.shiftl high 8) low);
        sampleCurrentTimestamp := millis |}).

Definition adc_mux_mask (P : Platform) : Z :=
  match arch P with
  | AVR_MEGA => 7
  | _ => 31
  end.

Definition startCurrentFromHW (P : Platform) (K : AvrAdc) (d : MotorDriver)
    (regs : AdcRegisters) : AdcRegisters :=
  {| ADCSRA := wrap_byte (bitSet (ADCSRA regs) (ADSC K));
     ADCL := ADCL regs; ADCH := ADCH regs;
     ADMUX := wrap_byte
                (Z.lor (Z.shiftl 1 (REFS0 K))
                   (Z.land (currentPin d - A0 K) (adc_mux_mask P))) |}.

(** The bit numbers of the ATmega ADC. *)
Definition atmega_adc : AvrAdc :=
  {| ADSC := 6; ADIF := 4; REFS0 := 6; A0 := 54 |}.

(** ** Further observations *)

(** The level [setPower] writes for a mode. *)
Definition power_level (d : MotorDriver) (mode : POWERMODE) : Level :=
  if POWERMODE_eqb mode ON
  then (if invertPower d then LOW else HIGH)
  else (if invertPower d then HIGH else LOW).

(** The hardware operations of successive checks. *)
Fixpoint checks_trace (P : Platform) (commonFaultPin useProgLimit : bool)
    (envs : list Env) (d : MotorDriver) : list Event :=
  match envs with
  | [] => []
  | env :: rest =>
      trace (checkPowerOverload P commonFaultPin env useProgLimit 0 d)
      ++ checks_trace P commonFaultPin useProgLimit rest
           (check P commonFaultPin env useProgLimit d)
  end.

(** Interrupt discipline of a trace: sections opened by [noInterrupts] are
    not nested and are closed at the end; pin and port writes happen only
    inside a section, everything else only outside. *)
Fixpoint sections_ok (masked : bool) (l : list Event) : bool :=
  match l with
  | [] => negb masked
  | EvNoInterrupts :: rest => negb masked && sections_ok true rest
  | EvInterrupts :: rest => masked && sections_ok false rest
  | EvIOWrite _ _ :: rest
  | EvSetSignal _ :: rest
  | EvShadowRefresh _ :: rest
  | EvShadowCommit _ :: rest => masked && sections_ok masked rest
  | _ :: rest => negb masked && sections_ok masked rest
  end.

(** The number of times the programming track is asked to clear its
    resets. *)
Definition clear_resets (l : list Event) : nat :=
  length (filter (fun e => match e with EvClearResets => true | _ => false end)
            l).

(** The invariant of the overload schedule: the good-sample counter stays
    within 0..100, the backoff below 20000 ms, and the poll interval below
    the largest of the fixed waits and 20000 ms. *)
Definition schedule_ok (P : Platform) (d : MotorDriver) : Prop :=
  0 <= power_good_counter d <= 100
  /\ 0 <= power_sample_overload_wait d < 20000
  /\ sampleDelay d
     <= Z.max (Z.max (POWER_SAMPLE_ON_WAIT P) (POWER_SAMPLE_OFF_WAIT P)) 19999.

(** A channel whose power pin and brake pin are wired inverted. *)
Definition inverted_track (P : Platform) : MotorDriver :=
  state (MotorDriver_ctor P
           {| power_pin := -3; signal_pin := 12; signal_pin2 := 13;
              brake_pin := -9; current_pin := 54;
              sense_factor_scaled := 765;
              trip_milliamps := 2000; fault_pin := UNUSED_PIN P |}
           bench (blank P)).
(** * Properties *)

(** ** Machine integers *)

Lemma pow2_split (bits : Z) : 0 < bits -> 2 ^ bits = 2 * 2 ^ (bits - 1).
Proof.
  intros Hb. rewrite <- Z.pow_succ_r by lia. f_equal. lia.
Qed.

Lemma wrap_signed_id (bits x : Z) :
  0 < bits -> min_signed bits <= x <= max_signed bits ->
  wrap_signed bits x = x.
Proof.
  unfold wrap_signed, min_signed, max_signed. intros Hb Hx.
  assert (Hp : 0 < 2 ^ (bits - 1)) by (apply Z.pow_pos_nonneg; lia).
  rewrite Z.mod_small; [lia | rewrite (pow2_split bits Hb); lia].
Qed.

Lemma wrap_signed_range (bits x : Z) :
  0 < bits -> min_signed bits <= wrap_signed bits x <= max_signed bits.
Proof.
  unfold wrap_signed, min_signed, max_signed. intros Hb.
  assert (Hp : 0 < 2 ^ (bits - 1)) by (apply Z.pow_pos_nonneg; lia).
  pose proof (Z.mod_pos_bound (x + 2 ^ (bits - 1)) (2 ^ bits)) as Hm.
  rewrite (pow2_split bits Hb) in *. lia.
Qed.

Lemma wrap_unsigned_id (bits x : Z) :
  0 <= bits -> 0 <= x <= max_unsigned bits -> wrap_unsigned bits x = x.
Proof.
  unfold wrap_unsigned, max_unsigned. intros Hb Hx.
  apply Z.mod_small. lia.
Qed.

Lemma wrap_unsigned_range (bits x : Z) :
  0 <= bits -> 0 <= wrap_unsigned bits x <= max_unsigned bits.
Proof.
  unfold wrap_unsigned, max_unsigned. intros Hb.
  assert (Hp : 0 < 2 ^ bits) by (apply Z.pow_pos_nonneg; lia).
  pose proof (Z.mod_pos_bound x (2 ^ bits) Hp). lia.
Qed.

Lemma max_signed_mono (a b : Z) :
  0 < a <= b -> max_signed a <= max_signed b.
Proof.
  unfold max_signed. intros H.
  assert (2 ^ (a - 1) <= 2 ^ (b - 1)) by (apply Z.pow_le_mono_r; lia). lia.
Qed.

Lemma max_unsigned_ge_signed (bits : Z) :
  0 < bits -> max_signed bits <= max_unsigned bits.
Proof.
  unfold max_signed, max_unsigned. intros Hb.
  assert (0 < 2 ^ (bits - 1)) by (apply Z.pow_pos_nonneg; lia).
  rewrite (pow2_split bits Hb). lia.
Qed.

Lemma speed_field_range (speedcode : Z) : 0 <= Z.land speedcode 127 <= 127.
Proof.
  change 127 with (Z.ones 7) at 1 2. rewrite Z.land_ones by lia.
  pose proof (Z.mod_pos_bound speedcode (2 ^ 7)). change (2 ^ 7) with 128 in *.
  lia.
Qed.

(** ** setDCSignal and setPower, spelled out *)

Lemma pwm_writes_app (l1 l2 : list Event) :
  pwm_writes (l1 ++ l2) = pwm_writes l1 ++ pwm_writes l2.
Proof. apply flat_map_app. Qed.

Lemma io_writes_app (l1 l2 : list Event) :
  io_writes (l1 ++ l2) = io_writes l1 ++ io_writes l2.
Proof. apply flat_map_app. Qed.

Lemma signal_writes_app (l1 l2 : list Event) :
  signal_writes (l1 ++ l2) = signal_writes l1 ++ signal_writes l2.
Proof. apply flat_map_app. Qed.

Lemma timer_prescale_quiet (P : Platform) (pin : Z) :
  pwm_writes (timer_prescale P pin) = []
  /\ io_writes (timer_prescale P pin) = []
  /\ signal_writes (timer_prescale P pin) = [].
Proof.
  unfold timer_prescale.
  destruct (arch P); auto;
    repeat match goal with
           | |- context [if ?c then _ else _] => destruct c
           end; auto.
Qed.

Lemma pwm_frequency_quiet (P : Platform) (pin s : Z) :
  pwm_writes (pwm_frequency P pin s) = []
  /\ io_writes (pwm_frequency P pin s) = []
  /\ signal_writes (pwm_frequency P pin s) = [].
Proof. unfold pwm_frequency. destruct (arch P); auto. Qed.

Lemma signal_write_obs (sh : option Port) (tDir : Z) :
  pwm_writes (signal_write sh tDir) = []
  /\ io_writes (signal_write sh tDir) = []
  /\ signal_writes (signal_write sh tDir) = [negb (tDir =? 0)].
Proof. destruct sh; auto. Qed.

Lemma setDCSignal_trace (P : Platform) (speedcode : Z) (d : MotorDriver) :
  trace (setDCSignal P speedcode d)
  = timer_prescale P (powerPin d)
    ++ pwm_frequency P (powerPin d) (Z.land speedcode 127)
    ++ [EvAnalogWrite (powerPin d)
          (pwm_duty (invertPower d) (Z.land speedcode 127))]
    ++ signal_write (shadowinout d) (Z.land speedcode 128).
Proof. reflexivity. Qed.

Lemma setDCSignal_state (P : Platform) (speedcode : Z) (d : MotorDriver) :
  state (setDCSignal P speedcode d)
  = set_DCinuse true (set_curSpeedCode speedcode d).
Proof. reflexivity. Qed.

Lemma setDCSignal_pwm_writes (P : Platform) (speedcode : Z)
    (d : MotorDriver) :
  pwm_writes (trace (setDCSignal P speedcode d))
  = [(powerPin d, pwm_duty (invertPower d) (Z.land speedcode 127))].
Proof.
  rewrite setDCSignal_trace, !pwm_writes_app.
  destruct (timer_prescale_quiet P (powerPin d)) as [-> _].
  destruct (pwm_frequency_quiet P (powerPin d) (Z.land speedcode 127))
    as [-> _].
  destruct (signal_write_obs (shadowinout d) (Z.land speedcode 128))
    as [-> _].
  reflexivity.
Qed.

Lemma setDCSignal_io_writes (P : Platform) (speedcode : Z)
    (d : MotorDriver) :
  io_writes (trace (setDCSignal P speedcode d)) = [].
Proof.
  rewrite setDCSignal_trace, !io_writes_app.
  destruct (timer_prescale_quiet P (powerPin d)) as (_ & -> & _).
  destruct (pwm_frequency_quiet P (powerPin d) (Z.land speedcode 127))
    as (_ & -> & _).
  destruct (signal_write_obs (shadowinout d) (Z.land speedcode 128))
    as (_ & -> & _).
  reflexivity.
Qed.

Lemma setDCSignal_signal_writes (P : Platform) (speedcode : Z)
    (d : MotorDriver) :
  signal_writes (trace (setDCSignal P speedcode d))
  = [negb (Z.land speedcode 128 =? 0)].
Proof.
  rewrite setDCSignal_trace, !signal_writes_app.
  destruct (timer_prescale_quiet P (powerPin d)) as (_ & _ & ->).
  destruct (pwm_frequency_quiet P (powerPin d) (Z.land speedcode 127))
    as (_ & _ & ->).
  destruct (signal_write_obs (shadowinout d) (Z.land speedcode 128))
    as (_ & _ & ->).
  reflexivity.
Qed.

(** The duty without the byte conversions, for a 7-bit speed. *)
Lemma pwm_duty_plain (invert : bool) (s : Z) :
  0 <= s <= 127 ->
  pwm_duty invert s
  = let duty := if s <=? 1 then 0 else if 127 <=? s then 255 else 2 * s in
    if invert then 255 - duty else duty.
Proof.
  intros Hs. unfold pwm_duty, wrap_byte. cbv zeta.
  destruct (s <=? 1) eqn:H1; [destruct invert; reflexivity|].
  destruct (127 <=? s) eqn:H2; [destruct invert; reflexivity|].
  apply Z.leb_gt in H1. apply Z.leb_gt in H2.
  assert (max_unsigned 8 = 255) by reflexivity.
  rewrite (wrap_unsigned_id 8 (2 * s)) by lia.
  destruct invert; [apply wrap_unsigned_id; lia | reflexivity].
Qed.

Lemma setPower_trace_on (P : Platform) (d : MotorDriver) :
  trace (setPower P ON d)
  = [EvNoInterrupts;
     EvIOWrite (powerPin d) (if invertPower d then LOW else HIGH);
     EvInterrupts]
    ++ (if DCinuse d then trace (setDCSignal P (curSpeedCode d) d) else [])
    ++ (if isProgTrack d then [EvClearResets] else []).
Proof.
  unfold setPower, bind, gets, emit, when, modify, ret. simpl.
  destruct (DCinuse d); simpl; destruct (isProgTrack d); simpl;
    rewrite ?app_nil_r; reflexivity.
Qed.

Lemma setPower_trace_off (P : Platform) (mode : POWERMODE)
    (d : MotorDriver) :
  mode <> ON ->
  trace (setPower P mode d)
  = [EvNoInterrupts;
     EvIOWrite (powerPin d) (if invertPower d then HIGH else LOW);
     EvInterrupts]
    ++ (if DCinuse d then trace (setDCSignal P 128 d) else []).
Proof.
  intros Hm.
  assert (Hb : POWERMODE_eqb mode ON = false) by (destruct mode; [reflexivity | congruence | reflexivity]).
  unfold setPower, bind, gets, emit, when, modify, ret. rewrite Hb. simpl.
  destruct (DCinuse d); simpl; rewrite ?app_nil_r; reflexivity.
Qed.

Lemma setPower_state (P : Platform) (mode : POWERMODE) (d : MotorDriver) :
  state (setPower P mode d)
  = set_powerMode mode
      (if DCinuse d
       then set_curSpeedCode
              (if POWERMODE_eqb mode ON then curSpeedCode d
               else wrap_byte (curSpeedCode d))
              (set_DCinuse true d)
       else d).
Proof.
  unfold setPower, bind, gets, emit, when, modify, ret.
  destruct mode; simpl; destruct (DCinuse d); simpl;
    destruct (isProgTrack d); reflexivity.
Qed.

Lemma setPower_powerMode (P : Platform) (mode : POWERMODE)
    (d : MotorDriver) :
  powerMode (state (setPower P mode d)) = mode.
Proof. rewrite setPower_state. reflexivity. Qed.

(** ** DC signal generation *)

(** C6.  [setDCSignal] sends exactly one duty to the PWM backend, on the
    power pin.  With [s] the 7-bit speed field of the speed code, the duty
    is 0 when [s <= 1], 255 when [s >= 127] and [2 * s] when
    [2 <= s <= 126]; when the power pin is inverted the value sent is 255
    minus that duty, in each of the three cases. *)
Theorem setDCSignal_duty_mapping (P : Platform) (d : MotorDriver)
    (speedcode : Z) :
  let s := Z.land speedcode 127 in
  exists duty : Z,
    ((s <= 1 /\ duty = 0)
     \/ (127 <= s /\ duty = 255)
     \/ (2 <= s <= 126 /\ duty = 2 * s))
    /\ pwm_writes (trace (setDCSignal P speedcode d))
       = [(powerPin d, if invertPower d then 255 - duty else duty)].
Proof.
  intros s. pose proof (speed_field_range speedcode) as Hs. fold s in Hs.
  rewrite setDCSignal_pwm_writes. fold s.
  rewrite (pwm_duty_plain (invertPower d) s Hs). cbv zeta.
  destruct (s <=? 1) eqn:H1.
  - exists 0. apply Z.leb_le in H1. split; [left; lia | reflexivity].
  - apply Z.leb_gt in H1. destruct (127 <=? s) eqn:H2.
    + exists 255. apply Z.leb_le in H2.
      split; [right; left; lia | reflexivity].
    + exists (2 * s). apply Z.leb_gt in H2.
      split; [right; right; lia | reflexivity].
Qed.

(** ** Power control *)

(** C7.  With the channel in DC use, [setPower(ON)] issues the hardware
    operations of [setDCSignal(curSpeedCode)] after switching the power pin
    on, so the duty and the direction of the stored speed code are sent
    again; [setPower(OFF)] sends the duty of a stopped output (0, or 255 on
    an inverted power pin) and leaves the stored speed code as it was. *)
Theorem setPower_dc_resume_and_stop (P : Platform) (d : MotorDriver) :
  DCinuse d = true ->
  0 <= curSpeedCode d < 256 ->
  let on := setPower P ON d in
  let off := setPower P OFF d in
  trace on
  = [EvNoInterrupts;
     EvIOWrite (powerPin d) (if invertPower d then LOW else HIGH);
     EvInterrupts]
    ++ trace (setDCSignal P (curSpeedCode d) d)
    ++ (if isProgTrack d then [EvClearResets] else [])
  /\ pwm_writes (trace on)
     = [(powerPin d,
         pwm_duty (invertPower d) (Z.land (curSpeedCode d) 127))]
  /\ signal_writes (trace on) = [negb (Z.land (curSpeedCode d) 128 =? 0)]
  /\ curSpeedCode (state on) = curSpeedCode d
  /\ pwm_writes (trace off)
     = [(powerPin d, if invertPower d then 255 else 0)]
  /\ curSpeedCode (state off) = curSpeedCode d
  /\ powerMode (state off) = OFF.
Proof.
  intros Hdc Hbyte on off. subst on off.
  rewrite setPower_trace_on, (setPower_trace_off P OFF d) by discriminate.
  rewrite !setPower_state, Hdc.
  repeat split.
  - rewrite !pwm_writes_app, setDCSignal_pwm_writes.
    destruct (isProgTrack d); reflexivity.
  - rewrite !signal_writes_app, setDCSignal_signal_writes.
    destruct (isProgTrack d); reflexivity.
  - rewrite pwm_writes_app, setDCSignal_pwm_writes.
    destruct (invertPower d); reflexivity.
  - simpl. apply wrap_unsigned_id; [lia | change (max_unsigned 8) with 255; lia].
Qed.

Lemma setPower_dc_resume_and_stop_witness :
  let d := dc_track avr_mega in
  pwm_writes (trace (setPower avr_mega ON d)) = [(3, 144)]
  /\ signal_writes (trace (setPower avr_mega ON d)) = [true]
  /\ pwm_writes (trace (setPower avr_mega OFF d)) = [(3, 0)]
  /\ curSpeedCode (state (setPower avr_mega OFF d)) = 200.
Proof.
  cbv zeta.
  assert (Hdc : DCinuse (dc_track avr_mega) = true)
    by (vm_compute; reflexivity).
  assert (Hbyte : 0 <= curSpeedCode (dc_track avr_mega) < 256)
    by (vm_compute; split; [discriminate | reflexivity]).
  destruct (setPower_dc_resume_and_stop avr_mega (dc_track avr_mega)
              Hdc Hbyte)
    as (_ & Hduty & Hdir & _ & Hstop & Hkeep & _).
  rewrite Hduty, Hdir, Hstop, Hkeep. vm_compute. repeat split.
Defined.

(** C10.  [setPower(mode)] leaves [powerMode = mode].  For every mode
    other than [ON] it writes the inactive level to the power pin ([HIGH]
    when the pin is inverted, [LOW] otherwise), any duty it then sends is
    the one of a stopped output, and the hardware operations are those of
    [setPower(OFF)]: [OVERLOAD] switches the output off as [OFF] does. *)
Theorem setPower_mode_and_enable_pin (P : Platform) (mode : POWERMODE)
    (d : MotorDriver) :
  powerMode (state (setPower P mode d)) = mode
  /\ (mode = ON
      \/ (io_writes (trace (setPower P mode d))
          = [(powerPin d, if invertPower d then HIGH else LOW)]
          /\ pwm_writes (trace (setPower P mode d))
             = (if DCinuse d
                then [(powerPin d, if invertPower d then 255 else 0)]
                else [])
          /\ trace (setPower P mode d) = trace (setPower P OFF d))).
Proof.
  split; [apply setPower_powerMode|].
  destruct mode; [right | left; reflexivity | right];
    rewrite !setPower_trace_off by discriminate;
    (split; [|split; [|reflexivity]]).
  all: try (rewrite io_writes_app; destruct (DCinuse d);
            [rewrite setDCSignal_io_writes|]; reflexivity).
  all: rewrite pwm_writes_app; destruct (DCinuse d);
    [rewrite setDCSignal_pwm_writes; destruct (invertPower d)|]; reflexivity.
Qed.

(** ** Running a member function *)

Lemma state_bind {A B : Type} (m : M A) (k : A -> M B) (d : MotorDriver) :
  state (bind m k d) = state (k (value (m d)) (state (m d))).
Proof.
  unfold bind. destruct (m d) as [a d1 l1]. simpl.
  destruct (k a d1); reflexivity.
Qed.

Lemma value_bind {A B : Type} (m : M A) (k : A -> M B) (d : MotorDriver) :
  value (bind m k d) = value (k (value (m d)) (state (m d))).
Proof.
  unfold bind. destruct (m d) as [a d1 l1]. simpl.
  destruct (k a d1); reflexivity.
Qed.

Lemma trace_bind {A B : Type} (m : M A) (k : A -> M B) (d : MotorDriver) :
  trace (bind m k d)
  = trace (m d) ++ trace (k (value (m d)) (state (m d))).
Proof.
  unfold bind. destruct (m d) as [a d1 l1]. simpl.
  destruct (k a d1); reflexivity.
Qed.

Lemma getCurrentRaw_pure (P : Platform) (env : Env) (d : MotorDriver) :
  getCurrentRaw P env d = mkOutcome (reading P env d) d [].
Proof.
  unfold reading, getCurrentRaw, bind, gets, ret. simpl.
  destruct (currentPin d =? UNUSED_PIN P); [reflexivity|].
  destruct (negb (faultPin d =? UNUSED_PIN P) && fault_low env
            && POWERMODE_eqb (powerMode d) ON); reflexivity.
Qed.

Lemma getCurrentRaw_state (P : Platform) (env : Env) (d : MotorDriver) :
  state (getCurrentRaw P env d) = d.
Proof. rewrite getCurrentRaw_pure. reflexivity. Qed.

Lemma getCurrentRaw_trace (P : Platform) (env : Env) (d : MotorDriver) :
  trace (getCurrentRaw P env d) = [].
Proof. rewrite getCurrentRaw_pure. reflexivity. Qed.

Lemma getCurrentRaw_value (P : Platform) (env : Env) (d : MotorDriver) :
  value (getCurrentRaw P env d) = reading P env d.
Proof. reflexivity. Qed.

(** The reading depends on four members only. *)
Lemma reading_ext (P : Platform) (env : Env) (d d' : MotorDriver) :
  currentPin d = currentPin d' -> senseOffset d = senseOffset d' ->
  faultPin d = faultPin d' -> powerMode d = powerMode d' ->
  reading P env d = reading P env d'.
Proof.
  destruct d, d'; simpl; intros -> -> -> ->.
  unfold reading, getCurrentRaw, bind, gets, ret. simpl.
  destruct (_ =? UNUSED_PIN P); [reflexivity|].
  destruct (negb _ && fault_low env && _); reflexivity.
Qed.

Ltac fields :=
  cbn [powerPin invertPower signalPin signalPin2 dualSignal shadowinout
       brakePin invertBrake currentPin senseOffset faultPin
       senseFactorInternal tripMilliamps rawCurrentTripValue progTripValue
       isProgTrack powerMode lastSampleTaken sampleDelay lastCurrent
       power_sample_overload_wait power_good_counter DCinuse curSpeedCode
       set_powerMode set_lastSampleTaken set_sampleDelay set_lastCurrent
       set_power_sample_overload_wait set_power_good_counter set_DCinuse
       set_curSpeedCode];
  repeat match goal with
         | |- context [tripValue_of ?u (set_lastSampleTaken ?t ?x)] =>
             change (tripValue_of u (set_lastSampleTaken t x))
               with (tripValue_of u x)
         end.

Ltac mstep :=
  repeat (rewrite ?state_bind, ?value_bind, ?trace_bind,
            ?getCurrentRaw_state,
            ?getCurrentRaw_trace, ?getCurrentRaw_value;
          cbn [value state trace gets modify emit emits ret when]);
  fields.

(** Members that [setPower] leaves alone. *)
Lemma setPower_frame (P : Platform) (mode : POWERMODE) (d : MotorDriver) :
  let d' := state (setPower P mode d) in
  lastCurrent d' = lastCurrent d
  /\ sampleDelay d' = sampleDelay d
  /\ lastSampleTaken d' = lastSampleTaken d
  /\ power_sample_overload_wait d' = power_sample_overload_wait d
  /\ power_good_counter d' = power_good_counter d
  /\ rawCurrentTripValue d' = rawCurrentTripValue d
  /\ progTripValue d' = progTripValue d
  /\ senseFactorInternal d' = senseFactorInternal d.
Proof.
  cbv zeta. rewrite setPower_state.
  destruct (DCinuse d); repeat split.
Qed.

Lemma raw2mA_ext (P : Platform) (d d' : MotorDriver) (raw : Z) :
  senseFactorInternal d = senseFactorInternal d' ->
  raw2mA P d raw = raw2mA P d' raw.
Proof. unfold raw2mA. intros ->. reflexivity. Qed.

(** ** The overload monitor, branch by branch *)

(** Power [OVERLOAD]: lines 419-425. *)
Lemma check_restore (P : Platform) (cfp : bool) (env : Env) (up : bool)
    (d : MotorDriver) :
  rate_limited env d = false -> powerMode d = OVERLOAD ->
  let d' := check P cfp env up d in
  powerMode d' = ON
  /\ sampleDelay d' = POWER_SAMPLE_ON_WAIT P
  /\ power_sample_overload_wait d' = power_sample_overload_wait d
  /\ power_good_counter d' = power_good_counter d.
Proof.
  intros Hg Hm. unfold check, checkPowerOverload. mstep.
  rewrite Hg. mstep. rewrite Hm. mstep.
  destruct (setPower_frame P ON (set_lastSampleTaken (millis_stamp env) d))
    as (_ & _ & _ & Fw & Fc & _).
  repeat split;
    [apply setPower_powerMode | rewrite Fw; reflexivity
    | rewrite Fc; reflexivity].
Qed.

(** Power [ON], no fault indication, reading below the threshold:
    lines 400-405. *)
Lemma check_healthy (P : Platform) (cfp : bool) (env : Env) (up : bool)
    (d : MotorDriver) :
  healthy P env up d = true ->
  let d1 := set_sampleDelay (POWER_SAMPLE_ON_WAIT P)
              (set_lastCurrent (reading P env d)
                 (set_lastSampleTaken (millis_stamp env) d)) in
  check P cfp env up d
  = if power_good_counter d <? 100
    then set_power_good_counter (wrap_uint P (power_good_counter d + 1)) d1
    else if POWER_SAMPLE_OVERLOAD_WAIT P <? power_sample_overload_wait d
         then set_power_sample_overload_wait (POWER_SAMPLE_OVERLOAD_WAIT P) d1
         else d1.
Proof.
  unfold healthy. rewrite !andb_true_iff, negb_true_iff.
  intros [[[Hg Hm] Hr] Ht]. cbv zeta.
  assert (Hm' : powerMode d = ON) by (destruct (powerMode d); discriminate || reflexivity).
  apply Z.leb_le in Hr.
  unfold check, checkPowerOverload. mstep.
  rewrite Hg. mstep. rewrite Hm'. mstep.
  rewrite (reading_ext P env _ d) by reflexivity.
  assert (Hneg : (reading P env d <? 0) = false) by (apply Z.ltb_ge; lia).
  rewrite Hneg. mstep. rewrite Ht. mstep.
  destruct (power_good_counter d <? 100); mstep; [reflexivity|].
  destruct (POWER_SAMPLE_OVERLOAD_WAIT P <? power_sample_overload_wait d);
    reflexivity.
Qed.

Lemma setPower_lastCurrent (P : Platform) (mode : POWERMODE)
    (d : MotorDriver) :
  lastCurrent (state (setPower P mode d)) = lastCurrent d.
Proof. apply (setPower_frame P mode d). Qed.

Lemma setPower_sampleDelay (P : Platform) (mode : POWERMODE)
    (d : MotorDriver) :
  sampleDelay (state (setPower P mode d)) = sampleDelay d.
Proof. apply (setPower_frame P mode d). Qed.

Lemma setPower_overload_wait (P : Platform) (mode : POWERMODE)
    (d : MotorDriver) :
  power_sample_overload_wait (state (setPower P mode d))
  = power_sample_overload_wait d.
Proof. apply (setPower_frame P mode d). Qed.

Lemma setPower_good_counter (P : Platform) (mode : POWERMODE)
    (d : MotorDriver) :
  power_good_counter (state (setPower P mode d)) = power_good_counter d.
Proof. apply (setPower_frame P mode d). Qed.

Lemma setPower_senseFactor (P : Platform) (mode : POWERMODE)
    (d : MotorDriver) :
  senseFactorInternal (state (setPower P mode d)) = senseFactorInternal d.
Proof. apply (setPower_frame P mode d). Qed.

Lemma setPower_raw2mA (P : Platform) (mode : POWERMODE) (d : MotorDriver)
    (raw : Z) :
  raw2mA P (state (setPower P mode d)) raw = raw2mA P d raw.
Proof. apply raw2mA_ext. apply (setPower_frame P mode d). Qed.

Ltac power_fields :=
  rewrite ?setPower_lastCurrent, ?setPower_sampleDelay,
    ?setPower_overload_wait, ?setPower_good_counter, ?setPower_powerMode,
    ?setPower_raw2mA.

Ltac mrun := repeat (progress (mstep; power_fields)).

(** Power [ON], magnitude at or above the threshold: lines 406-417, whether
    or not the fault pin flagged the reading. *)
Lemma check_trip (P : Platform) (cfp : bool) (env : Env) (up : bool)
    (d : MotorDriver) :
  tripping P env up d = true ->
  let d' := check P cfp env up d in
  sampleDelay d' = power_sample_overload_wait d
  /\ power_sample_overload_wait d'
     = next_overload_wait P (power_sample_overload_wait d)
  /\ power_good_counter d' = 0
  /\ powerMode d' = OVERLOAD.
Proof.
  unfold tripping, magnitude. rewrite !andb_true_iff, negb_true_iff.
  intros [[Hg Hm] Ht]. cbv zeta.
  assert (Hm' : powerMode d = ON)
    by (destruct (powerMode d); discriminate || reflexivity).
  unfold check, checkPowerOverload. mstep.
  rewrite Hg. mstep. rewrite Hm'. mstep.
  rewrite (reading_ext P env _ d) by reflexivity.
  destruct (reading P env d <? 0) eqn:Hneg.
  - assert (Hlt : (wrap_int P (- reading P env d) <? tripValue_of up d)
                  = false)
      by (apply Z.ltb_ge; apply Z.leb_le in Ht; lia).
    destruct cfp; mrun; rewrite Hlt; mrun; rewrite ?Hlt; mrun;
      repeat split.
  - assert (Hlt : (reading P env d <? tripValue_of up d) = false)
      by (apply Z.ltb_ge; apply Z.leb_le in Ht; lia).
    mrun. rewrite Hlt. mrun. repeat split.
Qed.

(** The track number only labels the diagnostics. *)
Lemma check_any_track (P : Platform) (cfp : bool) (env : Env) (up : bool)
    (tn : Z) (d : MotorDriver) :
  state (checkPowerOverload P cfp env up tn d) = check P cfp env up d.
Proof.
  unfold check, checkPowerOverload. mrun.
  destruct (rate_limited env d); mrun; [reflexivity|].
  destruct (powerMode d); mrun; try reflexivity.
  destruct (reading P env (set_lastSampleTaken (millis_stamp env) d) <? 0);
    mrun.
  - destruct cfp; mrun;
      destruct (wrap_int P _ <? tripValue_of up d); mrun;
      repeat match goal with
             | |- context [if ?c then _ else _] => destruct c; mrun
             end;
      reflexivity.
  - repeat match goal with
           | |- context [if ?c then _ else _] => destruct c; mrun
           end;
      reflexivity.
Qed.

(** ** The overload state machine *)

(** C9.  A check that is not rate limited and finds the power mode
    [OVERLOAD] leaves it [ON] and sets [sampleDelay] to
    [POWER_SAMPLE_ON_WAIT]; so no such check both starts and ends in
    [OVERLOAD]. *)
Theorem checkPowerOverload_overload_is_transient (P : Platform)
    (commonFaultPin : bool) (env : Env) (useProgLimit : bool) (trackno : Z)
    (d : MotorDriver) :
  rate_limited env d = false ->
  powerMode d = OVERLOAD ->
  let d' :=
    state (checkPowerOverload P commonFaultPin env useProgLimit trackno d) in
  powerMode d' = ON
  /\ sampleDelay d' = POWER_SAMPLE_ON_WAIT P
  /\ powerMode d' <> OVERLOAD.
Proof.
  intros Hg Hm. cbv zeta. rewrite check_any_track.
  destruct (check_restore P commonFaultPin env useProgLimit d Hg Hm)
    as (Hon & Hdelay & _).
  repeat split; [exact Hon | exact Hdelay | rewrite Hon; discriminate].
Qed.

Lemma checkPowerOverload_overload_is_transient_witness :
  let d := check avr_mega false (at_time 20000 1000 false) false
             (main_track avr_mega 127) in
  let d' := state (checkPowerOverload avr_mega false
                     (at_time 40000 1000 false) false 0 d) in
  powerMode d = OVERLOAD
  /\ powerMode d' = ON /\ sampleDelay d' = 100 /\ powerMode d' <> OVERLOAD.
Proof.
  split; [vm_compute; reflexivity|].
  apply (checkPowerOverload_overload_is_transient avr_mega false
           (at_time 40000 1000 false) false 0
           (check avr_mega false (at_time 20000 1000 false) false
              (main_track avr_mega 127)));
    vm_compute; reflexivity.
Defined.

(** *** Backoff escalation *)

(** What one overload does to the schedule, for any run: the delay is the
    backoff, the backoff moves to [next_overload_wait], and the restoring
    check keeps it. *)
Lemma trip_delays_unfold (P : Platform) (cfp up : bool)
    (envs : list (Env * Env)) (d : MotorDriver) :
  all_trips P cfp up envs d = true ->
  trip_delays P cfp up envs d
  = map (fun n => Nat.iter n (next_overload_wait P)
                    (power_sample_overload_wait d))
        (seq 0 (length envs)).
Proof.
  revert d. induction envs as [|[e1 e2] rest IH]; intros d Hall;
    [reflexivity|].
  simpl in Hall. rewrite !andb_true_iff, negb_true_iff in Hall.
  destruct Hall as [[Htrip Hg] Hrest].
  destruct (check_trip P cfp e1 up d Htrip) as (Hd & Hw & _ & Hm).
  destruct (check_restore P cfp e2 up _ Hg Hm) as (_ & _ & Hw2 & _).
  simpl. rewrite Hd. f_equal.
  rewrite (IH _ Hrest), Hw2, Hw, <- seq_shift, map_map.
  apply map_ext. intros n. symmetry. apply (Nat.iter_succ_r n).
Qed.

(** A backoff strictly between half the ceiling and the ceiling is doubled
    past the ceiling, and pulled back to it one overload later. *)
Lemma next_overload_wait_overshoot (P : Platform) (w : Z) :
  16 <= int_bits P -> 5000 < w < 10000 ->
  10000 < next_overload_wait P w
  /\ next_overload_wait P (next_overload_wait P w) = 10000.
Proof.
  intros Hb Hw. unfold next_overload_wait.
  assert (Hd : wrap_uint P (w * 2) = w * 2).
  { apply wrap_unsigned_id; [lia|]. unfold max_unsigned.
    assert (2 ^ 16 <= 2 ^ int_bits P) by (apply Z.pow_le_mono_r; lia).
    change (2 ^ 16) with 65536 in *. lia. }
  destruct (10000 <=? w) eqn:H1; [apply Z.leb_le in H1; lia|].
  rewrite Hd. split; [lia|].
  destruct (10000 <=? w * 2) eqn:H2; [reflexivity|].
  apply Z.leb_gt in H2. lia.
Qed.

(** C1, evaluated on the code.  With the floor at 20 ms, twelve
    consecutive overloads of a powered channel get the delays 20, 40, ...,
    5120, 10240, 10000, 10000.  The tenth delay is above the 10000 ms
    ceiling and the eleventh is below the tenth, so the sequence is neither
    bounded by the ceiling nor non-decreasing, and it is not
    [min (2^k * 20) 10000]. *)
Theorem overload_backoff_overshoots_ceiling :
  let d := main_track avr_mega 127 in
  let run := poll_pairs 12 20000 20000 1000 in
  POWER_SAMPLE_OVERLOAD_WAIT avr_mega = 20
  /\ power_sample_overload_wait d = 20
  /\ all_trips avr_mega false false run d = true
  /\ trip_delays avr_mega false false run d
     = [20; 40; 80; 160; 320; 640; 1280; 2560; 5120; 10240; 10000; 10000]
  /\ nth 9 (trip_delays avr_mega false false run d) 0 > Z.min (2 ^ 9 * 20) 10000
  /\ nth 10 (trip_delays avr_mega false false run d) 0
     < nth 9 (trip_delays avr_mega false false run d) 0.
Proof. vm_compute. repeat split. Qed.

(** *** Backoff relaxation *)

(** A run of healthy checks counts up to 100 without touching the backoff;
    the first healthy check that finds the counter at 100 brings the
    backoff down to the floor, where it stays. *)
Lemma healthy_run (P : Platform) (cfp up : bool) (envs : list Env) :
  7 <= int_bits P ->
  forall d : MotorDriver,
    all_healthy P cfp up envs d = true ->
    0 <= power_good_counter d <= 100 ->
    POWER_SAMPLE_OVERLOAD_WAIT P <= power_sample_overload_wait d ->
    let d' := checks P cfp up envs d in
    let n := Z.of_nat (length envs) in
    if power_good_counter d + n <=? 100
    then power_good_counter d' = power_good_counter d + n
         /\ power_sample_overload_wait d' = power_sample_overload_wait d
    else power_good_counter d' = 100
         /\ power_sample_overload_wait d' = POWER_SAMPLE_OVERLOAD_WAIT P.
Proof.
  intros Hb. induction envs as [|e rest IH]; intros d Hall Hc Hw.
  - cbv zeta. simpl. replace (power_good_counter d + 0 <=? 100) with true
      by (symmetry; apply Z.leb_le; lia).
    split; [lia | reflexivity].
  - simpl in Hall. apply andb_true_iff in Hall. destruct Hall as [Hh Hrest].
    pose proof (check_healthy P cfp e up d Hh) as Hstep. cbv zeta in Hstep.
    specialize (IH (check P cfp e up d) Hrest).
    cbv zeta in IH |- *. simpl checks.
    replace (Z.of_nat (length (e :: rest)))
      with (Z.of_nat (length rest) + 1) by (simpl length; lia).
    destruct (power_good_counter d <? 100) eqn:Hlt.
    + apply Z.ltb_lt in Hlt.
      assert (Hwrap : wrap_uint P (power_good_counter d + 1)
                      = power_good_counter d + 1).
      { apply wrap_unsigned_id; [lia|]. unfold max_unsigned.
        assert (2 ^ 7 <= 2 ^ int_bits P) by (apply Z.pow_le_mono_r; lia).
        change (2 ^ 7) with 128 in *. lia. }
      assert (Hc1 : power_good_counter (check P cfp e up d)
                    = power_good_counter d + 1)
        by (rewrite Hstep; simpl; exact Hwrap).
      assert (Hw1 : power_sample_overload_wait (check P cfp e up d)
                    = power_sample_overload_wait d)
        by (rewrite Hstep; reflexivity).
      rewrite Hc1, Hw1 in IH.
      replace (power_good_counter d + (Z.of_nat (length rest) + 1))
        with (power_good_counter d + 1 + Z.of_nat (length rest)) by lia.
      destruct (power_good_counter d + 1 + Z.of_nat (length rest) <=? 100);
        (destruct IH as [H1 H2]; [lia | lia |]); split; assumption || lia.
    + apply Z.ltb_ge in Hlt.
      assert (Hc1 : power_good_counter (check P cfp e up d) = 100).
      { rewrite Hstep.
        destruct (POWER_SAMPLE_OVERLOAD_WAIT P
                  <? power_sample_overload_wait d); simpl; lia. }
      assert (Hw1 : power_sample_overload_wait (check P cfp e up d)
                    = POWER_SAMPLE_OVERLOAD_WAIT P).
      { rewrite Hstep.
        destruct (POWER_SAMPLE_OVERLOAD_WAIT P
                  <? power_sample_overload_wait d) eqn:Hf; simpl;
          [reflexivity | apply Z.ltb_ge in Hf; lia]. }
      rewrite Hc1, Hw1 in IH.
      replace (power_good_counter d + (Z.of_nat (length rest) + 1) <=? 100)
        with false by (symmetry; apply Z.leb_gt; lia).
      destruct (100 + Z.of_nat (length rest) <=? 100) eqn:Hl;
        (destruct IH as [H1 H2]; [lia | lia |]); split; lia.
Qed.

(** C5, amended.  After an overload and the check that
    restores the power, 101 consecutive healthy checks bring the backoff
    back to the floor: the 101st is the first to find the counter at its
    ceiling of 100.  The delay assigned by the next overload is then the
    floor [POWER_SAMPLE_OVERLOAD_WAIT] again. *)
Theorem backoff_relaxes_after_101_healthy (P : Platform) (cfp up : bool)
    (d0 : MotorDriver) (e_over e_restore : Env) (envs : list Env)
    (e_next : Env) :
  7 <= int_bits P ->
  tripping P e_over up d0 = true ->
  let d1 := check P cfp e_over up d0 in
  rate_limited e_restore d1 = false ->
  POWER_SAMPLE_OVERLOAD_WAIT P <= power_sample_overload_wait d1 ->
  let d2 := check P cfp e_restore up d1 in
  all_healthy P cfp up envs d2 = true ->
  length envs = 101%nat ->
  let d3 := checks P cfp up envs d2 in
  tripping P e_next up d3 = true ->
  sampleDelay (check P cfp e_next up d3) = POWER_SAMPLE_OVERLOAD_WAIT P.
Proof.
  intros Hb Hover d1 Hg Hfloor d2 Hall Hlen d3 Hnext.
  destruct (check_trip P cfp e_over up d0 Hover) as (_ & _ & Hc1 & Hm1).
  fold d1 in Hc1, Hm1.
  destruct (check_restore P cfp e_restore up d1 Hg Hm1)
    as (_ & _ & Hw2 & Hc2).
  fold d2 in Hw2, Hc2.
  pose proof (healthy_run P cfp up envs Hb d2 Hall) as Hrun.
  rewrite Hc2, Hc1, Hw2, Hlen in Hrun. cbv zeta in Hrun. fold d3 in Hrun.
  destruct Hrun as [_ Hw3]; [lia | exact Hfloor |].
  destruct (check_trip P cfp e_next up d3 Hnext) as (Hdelay & _).
  rewrite Hdelay. exact Hw3.
Qed.

Lemma backoff_relaxes_after_101_healthy_witness :
  let P := avr_mega in
  let d1 := check P false (at_time 20000 1000 false) false
              (main_track P 127) in
  let d2 := check P false (at_time 40000 0 false) false d1 in
  let d3 := checks P false false (polls 101 60000 1000 0 false) d2 in
  power_sample_overload_wait d1 = 40
  /\ sampleDelay (check P false (at_time 200000 1000 false) false d3) = 20.
Proof.
  split; [vm_compute; reflexivity|].
  apply (backoff_relaxes_after_101_healthy avr_mega false false
           (main_track avr_mega 127) (at_time 20000 1000 false)
           (at_time 40000 0 false) (polls 101 60000 1000 0 false)
           (at_time 200000 1000 false));
    vm_compute; (reflexivity || discriminate).
Defined.

(** Counterexample to C5 with 100 healthy checks: with exactly 100 healthy
    checks between two overloads, the second overload still gets the
    escalated delay (40 ms here), not the floor (20 ms). *)
Lemma backoff_kept_after_100_healthy :
  let P := avr_mega in
  let d0 := main_track P 127 in
  let e_over := at_time 20000 1000 false in
  let d1 := check P false e_over false d0 in
  let d2 := check P false (at_time 40000 0 false) false d1 in
  let envs := polls 100 60000 1000 0 false in
  let d3 := checks P false false envs d2 in
  let e_next := at_time 200000 1000 false in
  POWER_SAMPLE_OVERLOAD_WAIT P = 20
  /\ tripping P e_over false d0 = true
  /\ sampleDelay d1 = 20
  /\ power_sample_overload_wait d1 = 40
  /\ powerMode d2 = ON
  /\ length envs = 100%nat
  /\ all_healthy P false false envs d2 = true
  /\ tripping P e_next false d3 = true
  /\ sampleDelay (check P false e_next false d3) = 40
  /\ sampleDelay (check P false e_next false d3)
     <> POWER_SAMPLE_OVERLOAD_WAIT P.
Proof. vm_compute. repeat split; discriminate. Qed.

(** ** Reading the current *)

(** Lines 204-205 without the conversions, when the difference and its
    negation fit an [int]. *)
Lemma current_magnitude (P : Platform) (x : Z) :
  0 < int_bits P -> Z.abs x <= INT_MAX P ->
  (if wrap_int P x <? 0 then wrap_int P (0 - wrap_int P x)
   else wrap_int P x) = Z.abs x.
Proof.
  intros Hb Hx. unfold wrap_int, INT_MAX in *.
  assert (Hr : min_signed (int_bits P) <= x <= max_signed (int_bits P))
    by (unfold min_signed, max_signed in *; lia).
  rewrite (wrap_signed_id _ x Hb Hr).
  destruct (x <? 0) eqn:Hneg.
  - apply Z.ltb_lt in Hneg. rewrite wrap_signed_id;
      [lia | exact Hb | unfold min_signed, max_signed in *; lia].
  - apply Z.ltb_ge in Hneg. lia.
Qed.

(** C3.  [getCurrentRaw] returns 0 when no current-sense pin is
    configured, whatever the fault pin and the power mode are.  Otherwise,
    with [m = |sample - senseOffset|] (representable as an [int]): when a
    fault pin is configured, reads active and the power mode is [ON], it
    returns [- m], and [-1] when [m = 0]; in every other case it returns
    [m]. *)
Theorem getCurrentRaw_contract (P : Platform) (env : Env) (d : MotorDriver) :
  let m := Z.abs (adc_read env - senseOffset d) in
  let fault_flagged :=
    faultPin d <> UNUSED_PIN P /\ fault_low env = true /\ powerMode d = ON in
  (currentPin d = UNUSED_PIN P -> value (getCurrentRaw P env d) = 0)
  /\ (currentPin d <> UNUSED_PIN P -> 0 < int_bits P -> m <= INT_MAX P ->
      fault_flagged ->
      value (getCurrentRaw P env d) = if m =? 0 then -1 else - m)
  /\ (currentPin d <> UNUSED_PIN P -> 0 < int_bits P -> m <= INT_MAX P ->
      ~ fault_flagged ->
      value (getCurrentRaw P env d) = m).
Proof.
  cbv zeta. unfold getCurrentRaw. mstep. repeat split.
  - intros Hc. apply Z.eqb_eq in Hc. rewrite Hc. reflexivity.
  - intros Hc Hb Hm (Hf & Hl & Hp). apply Z.eqb_neq in Hc, Hf.
    rewrite Hc. mstep. rewrite Hf, Hl, Hp. simpl andb. cbn [value ret].
    rewrite (current_magnitude P _ Hb Hm).
    destruct (Z.abs (adc_read env - senseOffset d) =? 0); [reflexivity|].
    apply wrap_signed_id; [exact Hb|].
    unfold INT_MAX, min_signed, max_signed in *. lia.
  - intros Hc Hb Hm Hnf. apply Z.eqb_neq in Hc. rewrite Hc. mstep.
    rewrite (current_magnitude P _ Hb Hm).
    destruct (negb (faultPin d =? UNUSED_PIN P) && fault_low env
              && POWERMODE_eqb (powerMode d) ON) eqn:Hcond;
      [|reflexivity].
    exfalso. apply Hnf.
    rewrite !andb_true_iff, negb_true_iff in Hcond.
    destruct Hcond as [[Hf Hl] Hp]. apply Z.eqb_neq in Hf.
    repeat split; [exact Hf | exact Hl |].
    destruct (powerMode d); discriminate || reflexivity.
Qed.

Lemma getCurrentRaw_contract_witness :
  let P := avr_mega in
  let d := main_track P 4 in
  value (getCurrentRaw P (at_time 0 300 true) d) = -300
  /\ value (getCurrentRaw P (at_time 0 0 true) d) = -1
  /\ value (getCurrentRaw P (at_time 0 300 false) d) = 300
  /\ value (getCurrentRaw P (at_time 0 300 true) (fault_only_track P)) = 0.
Proof.
  cbv zeta. split; [|split; [|split]].
  - apply (proj1 (proj2 (getCurrentRaw_contract avr_mega
                           (at_time 0 300 true) (main_track avr_mega 4))));
      vm_compute; try discriminate; repeat split; discriminate.
  - apply (proj1 (proj2 (getCurrentRaw_contract avr_mega
                           (at_time 0 0 true) (main_track avr_mega 4))));
      vm_compute; try discriminate; repeat split; discriminate.
  - apply (proj2 (proj2 (getCurrentRaw_contract avr_mega
                           (at_time 0 300 false) (main_track avr_mega 4))));
      vm_compute;
      [discriminate | reflexivity | discriminate
      | intros (_ & H & _); discriminate H].
  - apply (proj1 (getCurrentRaw_contract avr_mega (at_time 0 300 true) _)).
    reflexivity.
Defined.

Lemma wrap_signed_neg_le (bits r : Z) :
  0 < bits -> min_signed bits <= r < 0 -> wrap_signed bits (- r) <= - r.
Proof.
  intros Hb Hr.
  destruct (Z.eq_dec r (min_signed bits)) as [->|Hne].
  - pose proof (wrap_signed_range bits (- min_signed bits) Hb).
    unfold min_signed, max_signed in *.
    assert (0 < 2 ^ (bits - 1)) by (apply Z.pow_pos_nonneg; lia). lia.
  - rewrite wrap_signed_id; [lia | exact Hb|].
    unfold min_signed, max_signed in *. lia.
Qed.

Lemma wrap_signed_neg_sign (bits c : Z) :
  0 < bits -> 0 < c <= max_signed bits -> wrap_signed bits (- c) < 0.
Proof.
  intros Hb Hc. rewrite wrap_signed_id; [lia | exact Hb|].
  unfold min_signed, max_signed in *. lia.
Qed.

Lemma reading_range (P : Platform) (env : Env) (d : MotorDriver) :
  0 < int_bits P -> INT_MIN P <= reading P env d.
Proof.
  intros Hb. unfold reading, getCurrentRaw. mstep.
  pose proof (wrap_signed_range (int_bits P)) as Hw.
  specialize (Hw (adc_read env - senseOffset d) Hb) as Hw1.
  assert (Hone : INT_MIN P <= -1).
  { unfold INT_MIN, min_signed.
    assert (0 < 2 ^ (int_bits P - 1)) by (apply Z.pow_pos_nonneg; lia).
    lia. }
  destruct (currentPin d =? UNUSED_PIN P); mstep; [lia|].
  unfold wrap_int, INT_MIN in *.
  repeat match goal with
         | |- context [if ?c then _ else _] => destruct c; mstep
         end;
    solve [lia | apply Hw; exact Hb].
Qed.

(** With the fault pin flagged the reading is negative. *)
Lemma reading_fault_negative (P : Platform) (env : Env) (d : MotorDriver) :
  0 < int_bits P ->
  currentPin d <> UNUSED_PIN P -> faultPin d <> UNUSED_PIN P ->
  fault_low env = true -> powerMode d = ON ->
  reading P env d < 0.
Proof.
  intros Hb Hc Hf Hl Hp. apply Z.eqb_neq in Hc, Hf.
  unfold reading, getCurrentRaw. mstep. rewrite Hc. mstep.
  rewrite Hf, Hl, Hp. cbn [negb andb POWERMODE_eqb value ret].
  unfold wrap_int.
  pose proof (wrap_signed_range (int_bits P)
                (adc_read env - senseOffset d) Hb) as Hw.
  set (c := wrap_signed (int_bits P) (adc_read env - senseOffset d)) in *.
  destruct (c <? 0) eqn:Hneg.
  - apply Z.ltb_lt in Hneg. replace (0 - c) with (- c) by lia.
    destruct (wrap_signed (int_bits P) (- c) =? 0) eqn:Hz; [lia|].
    apply Z.eqb_neq in Hz.
    destruct (Z.eq_dec c (min_signed (int_bits P))) as [Hmin|Hne].
    + pose proof (wrap_signed_range (int_bits P)
                    (- wrap_signed (int_bits P) (- c)) Hb) as Hw2.
      pose proof (wrap_signed_neg_le (int_bits P) c Hb) as Hle.
      pose proof (wrap_signed_range (int_bits P) (- c) Hb) as Hw3.
      assert (Hmm : wrap_signed (int_bits P) (- c) = c).
      { rewrite Hmin. unfold wrap_signed, min_signed.
        rewrite Z.opp_involutive.
        replace (2 ^ (int_bits P - 1) + 2 ^ (int_bits P - 1))
          with (2 ^ int_bits P) by (rewrite (pow2_split _ Hb); lia).
        rewrite Z_mod_same_full. lia. }
      rewrite Hmm. rewrite Hmm. lia.
    + assert (Hid : wrap_signed (int_bits P) (- c) = - c)
        by (apply wrap_signed_id;
            [exact Hb | unfold min_signed, max_signed in *; lia]).
      rewrite Hid, Z.opp_involutive.
      fold c. unfold c at 1. rewrite wrap_signed_id; [lia | exact Hb|].
      fold c. lia.
  - apply Z.ltb_ge in Hneg.
    destruct (c =? 0) eqn:Hz; [lia|]. apply Z.eqb_neq in Hz.
    apply wrap_signed_neg_sign; [exact Hb | lia].
Qed.

Lemma overload_reports_app (l1 l2 : list Event) :
  overload_reports (l1 ++ l2) = overload_reports l1 ++ overload_reports l2.
Proof. apply flat_map_app. Qed.

Lemma setDCSignal_no_report (P : Platform) (speedcode : Z)
    (d : MotorDriver) :
  overload_reports (trace (setDCSignal P speedcode d)) = [].
Proof.
  rewrite setDCSignal_trace, !overload_reports_app.
  assert (H1 : overload_reports (timer_prescale P (powerPin d)) = []).
  { unfold timer_prescale. destruct (arch P); auto;
      repeat match goal with
             | |- context [if ?c then _ else _] => destruct c
             end; auto. }
  assert (H2 : overload_reports
                 (pwm_frequency P (powerPin d) (Z.land speedcode 127)) = [])
    by (unfold pwm_frequency; destruct (arch P); auto).
  rewrite H1, H2. destruct (shadowinout d); reflexivity.
Qed.

Lemma setPower_no_report (P : Platform) (mode : POWERMODE)
    (d : MotorDriver) :
  overload_reports (trace (setPower P mode d)) = [].
Proof.
  destruct mode.
  - rewrite setPower_trace_off, overload_reports_app by discriminate.
    destruct (DCinuse d); [rewrite setDCSignal_no_report|]; reflexivity.
  - rewrite setPower_trace_on, !overload_reports_app.
    destruct (DCinuse d); [rewrite setDCSignal_no_report|];
      destruct (isProgTrack d); reflexivity.
  - rewrite setPower_trace_off, overload_reports_app by discriminate.
    destruct (DCinuse d); [rewrite setDCSignal_no_report|]; reflexivity.
Qed.

(** ** The fault pin *)

(** C2, amended.  A check that is not rate limited, on a
    channel with a current-sense pin, power [ON], fault pin configured and
    active, and the magnitude of the current reading below the trip
    threshold: with [commonFaultPin] the power mode is [ON] when the call
    returns; without it the power mode is [OVERLOAD], [lastCurrent] equals
    the threshold, and the one overload report logs the threshold's
    milliamps as the current. *)
Theorem fault_pin_below_threshold (P : Platform) (commonFaultPin : bool)
    (env : Env) (useProgLimit : bool) (trackno : Z) (d : MotorDriver) :
  0 < int_bits P ->
  rate_limited env d = false ->
  powerMode d = ON ->
  currentPin d <> UNUSED_PIN P ->
  faultPin d <> UNUSED_PIN P ->
  fault_low env = true ->
  Z.abs (reading P env d) < tripValue_of useProgLimit d ->
  let r := checkPowerOverload P commonFaultPin env useProgLimit trackno d in
  let limit := tripValue_of useProgLimit d in
  if commonFaultPin
  then powerMode (state r) = ON
  else powerMode (state r) = OVERLOAD
       /\ lastCurrent (state r) = limit
       /\ overload_reports (trace r)
          = [(raw2mA P d limit, raw2mA P d limit)].
Proof.
  intros Hb Hg Hm Hc Hf Hl Hlt. cbv zeta.
  pose proof (reading_fault_negative P env d Hb Hc Hf Hl Hm) as Hneg.
  pose proof (reading_range P env d Hb) as Hmin.
  assert (Hmag : (wrap_int P (- reading P env d)
                  <? tripValue_of useProgLimit d) = true).
  { apply Z.ltb_lt.
    pose proof (wrap_signed_neg_le (int_bits P) (reading P env d) Hb).
    unfold wrap_int, INT_MIN in *. lia. }
  assert (Hnegb : (reading P env d <? 0) = true) by (apply Z.ltb_lt; lia).
  unfold checkPowerOverload. mrun. rewrite Hg. mrun. rewrite Hm. mrun.
  rewrite (reading_ext P env _ d) by reflexivity.
  rewrite Hnegb. destruct commonFaultPin; mrun; rewrite Hmag; mrun.
  - rewrite Hmag. mrun.
    repeat match goal with
           | |- context [if ?c then _ else _] => destruct c; mrun
           | |- context [when ?c _] => destruct c; mrun
           end; reflexivity.
  - rewrite Z.ltb_irrefl. mrun. repeat split.
    rewrite !overload_reports_app, !setPower_no_report. simpl.
    unfold raw2mA. fields. rewrite !setPower_senseFactor. reflexivity.
Qed.

Lemma fault_pin_below_threshold_witness :
  let P := avr_mega in
  let d := main_track P 4 in
  let env := at_time 1000 300 true in
  powerMode (state (checkPowerOverload P true env false 0 d)) = ON
  /\ (powerMode (state (checkPowerOverload P false env false 0 d)) = OVERLOAD
      /\ lastCurrent (state (checkPowerOverload P false env false 0 d))
         = tripValue_of false d
      /\ overload_reports (trace (checkPowerOverload P false env false 0 d))
         = [(raw2mA P d (tripValue_of false d),
             raw2mA P d (tripValue_of false d))]).
Proof.
  cbv zeta. split.
  - apply (fault_pin_below_threshold avr_mega true (at_time 1000 300 true)
             false 0 (main_track avr_mega 4));
      vm_compute; reflexivity || discriminate.
  - apply (fault_pin_below_threshold avr_mega false (at_time 1000 300 true)
             false 0 (main_track avr_mega 4));
      vm_compute; reflexivity || discriminate.
Defined.

(** Counterexample to C2, at two inputs.  On a channel that has a fault
    pin but no current-sense pin the reading is 0 whatever the fault pin
    says: with the fault pin active, [commonFaultPin] false and the
    magnitude (0) below the threshold (669), the check leaves the power
    [ON] and [lastCurrent] at 0.  On a channel with a current-sense pin, a
    sample equal to the offset is reported as -1 under an active fault pin,
    so the check works with magnitude 1: with [commonFaultPin] true and the
    threshold at 1 the measured magnitude [|sample - senseOffset| = 0] is
    below the threshold, yet the power mode is [OVERLOAD] when the call
    returns. *)
Lemma fault_pin_check_counterexamples :
  let P := avr_mega in
  let d := fault_only_track P in
  let env := at_time 1000 300 true in
  let d' := state (checkPowerOverload P false env false 0 d) in
  let c := low_trip_track P in
  let env0 := at_time 1000 0 true in
  let c' := state (checkPowerOverload P true env0 false 0 c) in
  (rate_limited env d = false
   /\ powerMode d = ON
   /\ faultPin d = 4 /\ faultPin d <> UNUSED_PIN P
   /\ fault_low env = true
   /\ currentPin d = UNUSED_PIN P
   /\ magnitude P env d = 0
   /\ tripValue_of false d = 669
   /\ powerMode d' = ON
   /\ powerMode d' <> OVERLOAD
   /\ lastCurrent d' = 0
   /\ overload_reports (trace (checkPowerOverload P false env false 0 d))
      = [])
  /\ (rate_limited env0 c = false
      /\ powerMode c = ON
      /\ currentPin c <> UNUSED_PIN P /\ faultPin c <> UNUSED_PIN P
      /\ fault_low env0 = true
      /\ Z.abs (adc_read env0 - senseOffset c) = 0
      /\ tripValue_of false c = 1
      /\ reading P env0 c = -1
      /\ powerMode c' = OVERLOAD
      /\ powerMode c' <> ON).
Proof. vm_compute. repeat split; discriminate. Qed.

(** ** Calibration *)

Lemma wrap_i32_id (x : Z) : 0 <= x <= INT32_MAX -> wrap_i32 x = x.
Proof.
  intros Hx. apply wrap_signed_id; [lia|].
  unfold INT32_MAX, min_signed, max_signed in *. simpl in *. lia.
Qed.

Lemma INT_MAX_le_INT32_MAX (P : Platform) :
  0 < int_bits P <= 32 -> INT_MAX P <= INT32_MAX.
Proof. intros Hb. apply max_signed_mono. exact Hb. Qed.

Lemma wrap_int_id_nonneg (P : Platform) (x : Z) :
  0 < int_bits P -> 0 <= x <= INT_MAX P -> wrap_int P x = x.
Proof.
  intros Hb Hx. apply wrap_signed_id; [exact Hb|].
  unfold INT_MAX, min_signed, max_signed in *.
  assert (0 < 2 ^ (int_bits P - 1)) by (apply Z.pow_pos_nonneg; lia). lia.
Qed.

Lemma wrap_uint_id (P : Platform) (x : Z) :
  0 < int_bits P -> 0 <= x <= UINT_MAX P -> wrap_uint P x = x.
Proof. intros Hb Hx. apply wrap_unsigned_id; [lia | exact Hx]. Qed.

(** [mA2raw] when nothing wraps. *)
Lemma mA2raw_exact (P : Platform) (d : MotorDriver) (x : Z) :
  0 < int_bits P ->
  0 < senseScale P -> 0 < senseFactorInternal d ->
  0 <= x <= UINT_MAX P ->
  x * senseScale P <= INT32_MAX ->
  x * senseScale P / senseFactorInternal d <= UINT_MAX P ->
  mA2raw P d x = x * senseScale P / senseFactorInternal d.
Proof.
  intros Hb Hs Hf Hx Hprod Hq. unfold mA2raw.
  rewrite (wrap_uint_id P x Hb Hx).
  rewrite (wrap_i32_id x) by nia.
  rewrite (wrap_i32_id (x * senseScale P)) by nia.
  rewrite Z.quot_div_nonneg by nia.
  apply wrap_uint_id; [exact Hb|].
  split; [apply Z.div_pos; nia | exact Hq].
Qed.

(** C8, amended.  For a positive sense factor and a milliamp
    value [x] whose product with [senseScale] fits 32 bits and whose raw
    value [x * senseScale / senseFactorInternal] fits an [int] (it passes
    through the [unsigned int] result of [mA2raw] and the [int] parameter
    of [raw2mA]), [raw2mA (mA2raw x)] is at most [x] and less than
    [senseFactorInternal / senseScale + 1] below it. *)
Theorem mA_round_trip (P : Platform) (d : MotorDriver) (x : Z) :
  0 < int_bits P <= 32 ->
  0 < senseScale P ->
  0 < senseFactorInternal d ->
  0 <= x <= UINT_MAX P ->
  x * senseScale P <= INT32_MAX ->
  x * senseScale P / senseFactorInternal d <= INT_MAX P ->
  round_trip_close P d x.
Proof.
  intros Hb Hs Hf Hx Hprod Hq.
  assert (Hb0 : 0 < int_bits P) by lia.
  pose proof (INT_MAX_le_INT32_MAX P Hb) as H32.
  pose proof (max_unsigned_ge_signed (int_bits P) Hb0) as Hu.
  fold (INT_MAX P) in Hu. fold (UINT_MAX P) in Hu.
  set (f := senseFactorInternal d) in *. set (s := senseScale P) in *.
  set (q := x * s / f) in *.
  assert (Hq0 : 0 <= q) by (apply Z.div_pos; nia).
  assert (Hqf : q * f <= x * s)
    by (rewrite Z.mul_comm; apply Z.mul_div_le; lia).
  assert (Hqf' : x * s < q * f + f).
  { pose proof (Z.mul_succ_div_gt (x * s) f Hf). fold q in H. nia. }
  unfold round_trip_close. cbv zeta.
  rewrite (mA2raw_exact P d x Hb0 Hs Hf Hx Hprod) by (fold f s q; lia).
  fold s f q. unfold raw2mA. fold s f.
  rewrite (wrap_int_id_nonneg P q Hb0) by lia.
  rewrite (wrap_i32_id q) by lia.
  rewrite (wrap_i32_id (q * f)) by nia.
  rewrite Z.quot_div_nonneg by nia.
  set (y := q * f / s).
  assert (Hy0 : 0 <= y) by (apply Z.div_pos; nia).
  assert (Hys : y * s <= q * f)
    by (rewrite Z.mul_comm; apply Z.mul_div_le; lia).
  assert (Hys' : q * f < y * s + s).
  { pose proof (Z.mul_succ_div_gt (q * f) s Hs). fold y in H. nia. }
  assert (Hyx : y <= x) by nia.
  rewrite (wrap_uint_id P y Hb0) by lia.
  split; [exact Hyx | nia].
Qed.

Lemma mA_round_trip_witness :
  round_trip_close avr_mega (channel avr_mega 765 2000) 2000
  /\ raw2mA avr_mega (channel avr_mega 765 2000)
       (mA2raw avr_mega (channel avr_mega 765 2000) 2000) = 1999.
Proof.
  split; [|vm_compute; reflexivity].
  apply (mA_round_trip avr_mega (channel avr_mega 765 2000) 2000);
    vm_compute; repeat split; try reflexivity; discriminate.
Defined.

(** Counterexample to C8 where [int] has 16 bits.  With 124/256 mA per raw
    step and [x = 20000] both products fit 32 bits, but the raw value
    41290 does not fit an [int]: [raw2mA] receives -24246 and the round
    trip yields 53792. *)
Lemma mA_round_trip_breaks_on_16_bit_int :
  let P := avr_mega in
  let d := channel P 124 2000 in
  let x := 20000 in
  int_bits P = 16
  /\ senseFactorInternal d = 124 /\ senseScale P = 256
  /\ 0 <= x <= UINT_MAX P
  /\ x * senseScale P = 5120000 /\ x * senseScale P <= INT32_MAX
  /\ mA2raw P d x = 41290
  /\ wrap_int P 41290 = -24246
  /\ Z.abs (-24246 * senseFactorInternal d) <= INT32_MAX
  /\ raw2mA P d (mA2raw P d x) = 53792
  /\ ~ round_trip_close P d x.
Proof.
  cbv zeta. unfold round_trip_close.
  repeat split; try (vm_compute; reflexivity || discriminate).
  vm_compute. intros [H _]. apply H. reflexivity.
Qed.

(** C4, amended.  Provided the nominal threshold
    [mA2raw(trip_milliamps)], its sum with [senseOffset] and the difference
    [ADCmax() - senseOffset] are representable as an [int], the constructor
    stores [ADCmax() - senseOffset] when the sum exceeds [ADCmax()] and the
    nominal threshold otherwise; so the stored threshold plus [senseOffset]
    never exceeds [ADCmax()]. *)
Theorem ctor_trip_threshold_clamp (P : Platform) (a : CtorArgs)
    (e : CtorEnv) (this0 : MotorDriver) :
  let d := state (MotorDriver_ctor P a e this0) in
  let nominal := mA2raw P d (trip_milliamps a) in
  0 < int_bits P ->
  representable P nominal ->
  representable P (nominal + senseOffset d) ->
  representable P (ADCmax e - senseOffset d) ->
  rawCurrentTripValue d
  = (if ADCmax e <? nominal + senseOffset d
     then ADCmax e - senseOffset d
     else nominal)
  /\ rawCurrentTripValue d + senseOffset d <= ADCmax e.
Proof.
  cbv zeta. unfold MotorDriver_ctor, representable. cbn [state]. fields.
  set (off := if negb (current_pin a =? UNUSED_PIN P)
              then adc_init e else senseOffset this0).
  unfold mA2raw. fields.
  set (nominal :=
         wrap_uint P
           (wrap_i32 (wrap_i32 (wrap_uint P (trip_milliamps a))
                      * senseScale P) ÷ sense_factor_scaled a)).
  intros Hb Hnom Hsum Hdiff.
  unfold wrap_int, INT_MIN, INT_MAX in *.
  rewrite (wrap_signed_id _ nominal Hb Hnom).
  rewrite (wrap_signed_id _ (nominal + off) Hb Hsum).
  rewrite (wrap_signed_id _ (ADCmax e - off) Hb Hdiff).
  destruct (ADCmax e <? nominal + off) eqn:Hcmp.
  - split; [reflexivity | lia].
  - apply Z.ltb_ge in Hcmp. split; [reflexivity | lia].
Qed.

Lemma ctor_trip_threshold_clamp_witness :
  rawCurrentTripValue (channel avr_mega 765 4000) = 1023
  /\ rawCurrentTripValue (channel avr_mega 765 2000) = 669.
Proof.
  split.
  - apply (proj1 (ctor_trip_threshold_clamp avr_mega
                    {| power_pin := 3; signal_pin := 12;
                       signal_pin2 := 127; brake_pin := 9;
                       current_pin := 54; sense_factor_scaled := 765;
                       trip_milliamps := 4000; fault_pin := 127 |}
                    bench (blank avr_mega)
                    ltac:(reflexivity) ltac:(split; discriminate)
                    ltac:(split; discriminate) ltac:(split; discriminate))).
  - apply (proj1 (ctor_trip_threshold_clamp avr_mega
                    {| power_pin := 3; signal_pin := 12;
                       signal_pin2 := 127; brake_pin := 9;
                       current_pin := 54; sense_factor_scaled := 765;
                       trip_milliamps := 2000; fault_pin := 127 |}
                    bench (blank avr_mega)
                    ltac:(reflexivity) ltac:(split; discriminate)
                    ltac:(split; discriminate) ltac:(split; discriminate))).
Defined.

(** Counterexample to C4 where [int] has 16 bits.  With one milliamp per raw
    step and a trip current of 40000 mA, [mA2raw] returns 40000, far above
    the ADC maximum, yet the value wraps to -25536 when it is stored in the
    [int] member, the comparison does not fire and the threshold stays
    -25536 instead of [ADCmax() - senseOffset = 1023]. *)
Lemma ctor_trip_threshold_wraps_on_16_bit_int :
  let P := avr_mega in
  let d := channel P 256 40000 in
  int_bits P = 16
  /\ mA2raw P d 40000 = 40000
  /\ senseOffset d = 0
  /\ ADCmax bench = 1023
  /\ ADCmax bench < mA2raw P d 40000 + senseOffset d
  /\ rawCurrentTripValue d = -25536
  /\ rawCurrentTripValue d <> ADCmax bench - senseOffset d.
Proof. vm_compute. repeat split; discriminate. Qed.

(** * Further properties of the driver *)

(** ** Brake control *)

(** X1.  The sign of the constructor's brake pin decides the polarity of
    [setBrake]: for a brake pin that is neither [UNUSED_PIN] nor its
    negative, applying the brake writes [HIGH] when the pin number is
    non-negative and [LOW] when it is negative, and releasing it writes the
    opposite level.  The call is that single write, put between
    [noInterrupts] and [interrupts] unless the caller is in interrupt
    context. *)
Theorem setBrake_polarity (P : Platform) (a : CtorArgs) (e : CtorEnv)
    (this0 : MotorDriver) (on interruptContext : bool) :
  brake_pin a <> UNUSED_PIN P ->
  brake_pin a <> - UNUSED_PIN P ->
  let d := state (MotorDriver_ctor P a e this0) in
  let w := if Bool.eqb on (0 <=? brake_pin a) then BrSetHIGH else BrSetLOW in
  setBrake P on interruptContext d
  = if interruptContext then [w] else [BrNoInterrupts; w; BrInterrupts].
Proof.
  intros Hu Hn. cbv zeta. unfold setBrake, MotorDriver_ctor.
  cbn [state brakePin invertBrake].
  apply Z.eqb_neq in Hu. rewrite Hu. cbn [negb].
  destruct (brake_pin a <? 0) eqn:Hneg.
  - apply Z.ltb_lt in Hneg.
    replace (0 - brake_pin a =? UNUSED_PIN P) with false
      by (symmetry; apply Z.eqb_neq; lia).
    replace (0 <=? brake_pin a) with false
      by (symmetry; apply Z.leb_gt; lia).
    destruct on, interruptContext; reflexivity.
  - apply Z.ltb_ge in Hneg. rewrite Hu.
    replace (0 <=? brake_pin a) with true
      by (symmetry; apply Z.leb_le; lia).
    destruct on, interruptContext; reflexivity.
Qed.

Lemma setBrake_polarity_witness :
  setBrake avr_mega true false (inverted_track avr_mega)
  = [BrNoInterrupts; BrSetLOW; BrInterrupts]
  /\ setBrake avr_mega true true (channel avr_mega 765 2000) = [BrSetHIGH].
Proof.
  split.
  - apply (setBrake_polarity avr_mega
             {| power_pin := -3; signal_pin := 12; signal_pin2 := 13;
                brake_pin := -9; current_pin := 54;
                sense_factor_scaled := 765;
                trip_milliamps := 2000; fault_pin := 127 |}
             bench (blank avr_mega) true false); vm_compute; discriminate.
  - apply (setBrake_polarity avr_mega
             {| power_pin := 3; signal_pin := 12; signal_pin2 := 127;
                brake_pin := 9; current_pin := 54;
                sense_factor_scaled := 765;
                trip_milliamps := 2000; fault_pin := 127 |}
             bench (blank avr_mega) true true); vm_compute; discriminate.
Defined.

(** ** Power control and the DC signal, composed *)

Lemma setPower_io_writes (P : Platform) (mode : POWERMODE)
    (d : MotorDriver) :
  io_writes (trace (setPower P mode d)) = [(powerPin d, power_level d mode)].
Proof.
  unfold power_level. destruct mode.
  - rewrite setPower_trace_off, io_writes_app by discriminate.
    destruct (DCinuse d); [rewrite setDCSignal_io_writes|]; reflexivity.
  - rewrite setPower_trace_on, !io_writes_app.
    destruct (DCinuse d); [rewrite setDCSignal_io_writes|];
      destruct (isProgTrack d); reflexivity.
  - rewrite setPower_trace_off, io_writes_app by discriminate.
    destruct (DCinuse d); [rewrite setDCSignal_io_writes|]; reflexivity.
Qed.

(** Members that [setPower] never writes. *)
Lemma setPower_config (P : Platform) (mode : POWERMODE) (d : MotorDriver) :
  let d' := state (setPower P mode d) in
  powerPin d' = powerPin d /\ invertPower d' = invertPower d
  /\ currentPin d' = currentPin d /\ senseOffset d' = senseOffset d
  /\ faultPin d' = faultPin d /\ isProgTrack d' = isProgTrack d
  /\ shadowinout d' = shadowinout d /\ brakePin d' = brakePin d
  /\ invertBrake d' = invertBrake d.
Proof.
  cbv zeta. rewrite setPower_state. destruct (DCinuse d); repeat split.
Qed.

(** X2.  The constructor writes the power pin once, with the level that
    [setPower(OFF)] writes on the constructed channel, and [setPower(ON)]
    writes the other level: a channel is born switched off, for either
    polarity of the power pin. *)
Theorem ctor_leaves_output_off (P : Platform) (a : CtorArgs) (e : CtorEnv)
    (this0 : MotorDriver) :
  let r := MotorDriver_ctor P a e this0 in
  io_writes (trace r) = io_writes (trace (setPower P OFF (state r)))
  /\ io_writes (trace r) = [(powerPin (state r), power_level (state r) OFF)]
  /\ power_level (state r) ON <> power_level (state r) OFF.
Proof.
  cbv zeta. rewrite setPower_io_writes.
  unfold MotorDriver_ctor, power_level. cbn [state trace powerPin invertPower].
  rewrite !io_writes_app.
  assert (Hquiet : forall l1 l2 l3 l4 l5 : list Event,
             (forall x, In x (l1 ++ l2 ++ l3 ++ l4 ++ l5) ->
                        match x with EvIOWrite _ _ => False | _ => True end) ->
             io_writes (l1 ++ l2 ++ l3 ++ l4 ++ l5) = []).
  { intros l1 l2 l3 l4 l5. generalize (l1 ++ l2 ++ l3 ++ l4 ++ l5).
    induction l as [|x l IH]; intros H; [reflexivity|].
    simpl. rewrite IH by (intros y Hy; apply H; right; exact Hy).
    specialize (H x (or_introl eq_refl)). destruct x; tauto || reflexivity. }
  repeat split.
  - cbn [io_writes flat_map app]. f_equal.
    rewrite <- !io_writes_app. apply Hquiet. intros x Hx.
    repeat (apply in_app_or in Hx; destruct Hx as [Hx|Hx]);
      repeat match type of Hx with
             | In _ (match ?c with _ => _ end) => destruct c
             | In _ (if ?c then _ else _) => destruct c
             end;
      simpl in Hx; intuition (subst; exact I).
  - cbn [io_writes flat_map app]. f_equal.
    rewrite <- !io_writes_app. apply Hquiet. intros x Hx.
    repeat (apply in_app_or in Hx; destruct Hx as [Hx|Hx]);
      repeat match type of Hx with
             | In _ (match ?c with _ => _ end) => destruct c
             | In _ (if ?c then _ else _) => destruct c
             end;
      simpl in Hx; intuition (subst; exact I).
  - destruct (power_pin a <? 0); discriminate.
Qed.

(** X3.  Switching a DC channel off and on again resumes it: after
    [setPower(OFF)] (or [OVERLOAD]) followed by [setPower(ON)] the object is
    the one a direct [setPower(ON)] gives, and the second call sends the
    same duty and direction as a direct [setPower(ON)] would. *)
Theorem setPower_cycle_resumes (P : Platform) (mode : POWERMODE)
    (d : MotorDriver) :
  0 <= curSpeedCode d < 256 ->
  let d_off := state (setPower P mode d) in
  state (setPower P ON d_off) = state (setPower P ON d)
  /\ pwm_writes (trace (setPower P ON d_off))
     = pwm_writes (trace (setPower P ON d))
  /\ signal_writes (trace (setPower P ON d_off))
     = signal_writes (trace (setPower P ON d)).
Proof.
  intros Hbyte. cbv zeta.
  assert (Hw : wrap_byte (curSpeedCode d) = curSpeedCode d)
    by (apply wrap_unsigned_id;
        [lia | change (max_unsigned 8) with 255; lia]).
  rewrite !setPower_trace_on, !setPower_state.
  rewrite !pwm_writes_app, !signal_writes_app.
  destruct (DCinuse d) eqn:Hdc; fields; rewrite ?Hdc; fields.
  - rewrite !setDCSignal_pwm_writes, !setDCSignal_signal_writes. fields.
    destruct (POWERMODE_eqb mode ON); rewrite ?Hw; repeat split.
  - repeat split.
Qed.

Lemma setPower_cycle_resumes_witness :
  let d := dc_track avr_mega in
  pwm_writes (trace (setPower avr_mega ON (state (setPower avr_mega OFF d))))
  = pwm_writes (trace (setPower avr_mega ON d)).
Proof.
  cbv zeta.
  assert (Hbyte : 0 <= curSpeedCode (dc_track avr_mega) < 256)
    by (vm_compute; split; [discriminate | reflexivity]).
  exact (proj1 (proj2 (setPower_cycle_resumes avr_mega OFF
                         (dc_track avr_mega) Hbyte))).
Defined.

Lemma clear_resets_app (l1 l2 : list Event) :
  clear_resets (l1 ++ l2) = (clear_resets l1 + clear_resets l2)%nat.
Proof. unfold clear_resets. rewrite filter_app, length_app. reflexivity. Qed.

Lemma setDCSignal_no_clear_resets (P : Platform) (speedcode : Z)
    (d : MotorDriver) :
  clear_resets (trace (setDCSignal P speedcode d)) = 0%nat.
Proof.
  rewrite setDCSignal_trace, !clear_resets_app.
  assert (H1 : clear_resets (timer_prescale P (powerPin d)) = 0%nat).
  { unfold timer_prescale. destruct (arch P); auto;
      repeat match goal with
             | |- context [if ?c then _ else _] => destruct c
             end; auto. }
  assert (H2 : clear_resets
                 (pwm_frequency P (powerPin d) (Z.land speedcode 127))
               = 0%nat)
    by (unfold pwm_frequency; destruct (arch P); auto).
  rewrite H1, H2. destruct (shadowinout d); reflexivity.
Qed.

(** [setPower] asks the programming track to clear its resets exactly
    once when the mode is [ON] and the channel is the programming track,
    and never otherwise. *)
Lemma setPower_clears_resets (P : Platform) (mode : POWERMODE)
    (d : MotorDriver) :
  clear_resets (trace (setPower P mode d))
  = if POWERMODE_eqb mode ON && isProgTrack d then 1%nat else 0%nat.
Proof.
  destruct mode.
  - rewrite setPower_trace_off, clear_resets_app by discriminate.
    destruct (DCinuse d); [rewrite setDCSignal_no_clear_resets|];
      reflexivity.
  - rewrite setPower_trace_on, !clear_resets_app.
    destruct (DCinuse d); [rewrite setDCSignal_no_clear_resets|];
      destruct (isProgTrack d); reflexivity.
  - rewrite setPower_trace_off, clear_resets_app by discriminate.
    destruct (DCinuse d); [rewrite setDCSignal_no_clear_resets|];
      reflexivity.
Qed.

(** X4.  The duty is monotone in the speed: on a non-inverted power pin a
    higher 7-bit speed never gives a lower duty, on an inverted pin never a
    higher one; the duty is a byte, and the inverted duty is 255 minus the
    plain one. *)
Theorem pwm_duty_monotone (s1 s2 : Z) :
  0 <= s1 <= s2 -> s2 <= 127 ->
  pwm_duty false s1 <= pwm_duty false s2
  /\ pwm_duty true s2 <= pwm_duty true s1
  /\ 0 <= pwm_duty false s1 <= 255
  /\ pwm_duty true s1 = 255 - pwm_duty false s1.
Proof.
  intros H1 H2.
  rewrite !pwm_duty_plain by lia. cbv zeta.
  destruct (s1 <=? 1) eqn:A1; destruct (127 <=? s1) eqn:B1;
    destruct (s2 <=? 1) eqn:A2; destruct (127 <=? s2) eqn:B2;
    rewrite ?Z.leb_le, ?Z.leb_gt in *; lia.
Qed.

Lemma pwm_duty_monotone_witness :
  pwm_duty false 60 <= pwm_duty false 126
  /\ pwm_duty true 126 <= pwm_duty true 60.
Proof.
  destruct (pwm_duty_monotone 60 126 ltac:(lia) ltac:(lia))
    as (Hup & Hdown & _).
  exact (conj Hup Hdown).
Defined.

(** Checking a decidable property of bytes by enumeration. *)
Lemma range_cases (f : Z -> bool) (lo : Z) (n : nat) :
  forallb f (map (fun k => lo + Z.of_nat k) (seq 0 n)) = true ->
  forall c : Z, lo <= c < lo + Z.of_nat n -> f c = true.
Proof.
  intros Hall c Hc. rewrite forallb_forall in Hall. apply Hall.
  apply in_map_iff. exists (Z.to_nat (c - lo)).
  split; [lia | apply in_seq; lia].
Qed.

(** X5.  In a speed code the top bit is the direction and nothing else:
    [setDCSignal] drives the direction pin high exactly for codes of 128
    and above, and a code and the code with the top bit flipped get the
    same duty. *)
Theorem setDCSignal_direction_bit (P : Platform) (d : MotorDriver)
    (speedcode : Z) :
  0 <= speedcode < 256 ->
  signal_writes (trace (setDCSignal P speedcode d)) = [128 <=? speedcode]
  /\ pwm_writes (trace (setDCSignal P (Z.lxor speedcode 128) d))
     = pwm_writes (trace (setDCSignal P speedcode d)).
Proof.
  intros Hc.
  rewrite setDCSignal_signal_writes, !setDCSignal_pwm_writes.
  assert (H : (Bool.eqb (negb (Z.land speedcode 128 =? 0))
                 (128 <=? speedcode)
               && (Z.land (Z.lxor speedcode 128) 127
                   =? Z.land speedcode 127)) = true).
  { apply (range_cases
             (fun c => Bool.eqb (negb (Z.land c 128 =? 0)) (128 <=? c)
                       && (Z.land (Z.lxor c 128) 127 =? Z.land c 127))
             0 256); [vm_compute; reflexivity | lia]. }
  apply andb_true_iff in H. destruct H as [Hdir Hspeed].
  apply Bool.eqb_prop in Hdir. apply Z.eqb_eq in Hspeed.
  rewrite Hdir, Hspeed. split; reflexivity.
Qed.

Lemma setDCSignal_direction_bit_witness :
  signal_writes (trace (setDCSignal avr_mega 200 (main_track avr_mega 127)))
  = [true].
Proof.
  exact (proj1 (setDCSignal_direction_bit avr_mega (main_track avr_mega 127)
                  200 ltac:(lia))).
Defined.



(** ** Interrupt discipline *)

Lemma sections_ok_app (l1 l2 : list Event) :
  forall masked : bool,
    sections_ok masked l1 = true ->
    sections_ok masked (l1 ++ l2) = sections_ok false l2.
Proof.
  induction l1 as [|x l1 IH]; intros masked H.
  - simpl in H. apply negb_true_iff in H. subst. reflexivity.
  - destruct x, masked; simpl in H |- *; try discriminate H;
      apply IH; exact H.
Qed.

Lemma setDCSignal_sections (P : Platform) (speedcode : Z)
    (d : MotorDriver) :
  sections_ok false (trace (setDCSignal P speedcode d)) = true.
Proof.
  rewrite setDCSignal_trace.
  rewrite sections_ok_app.
  2:{ unfold timer_prescale. destruct (arch P); auto;
        repeat match goal with
               | |- context [if ?c then _ else _] => destruct c
               end; auto. }
  rewrite sections_ok_app
    by (unfold pwm_frequency; destruct (arch P); auto).
  destruct (shadowinout d); reflexivity.
Qed.

Lemma setPower_sections (P : Platform) (mode : POWERMODE)
    (d : MotorDriver) :
  sections_ok false (trace (setPower P mode d)) = true.
Proof.
  destruct mode.
  - rewrite setPower_trace_off by discriminate.
    rewrite sections_ok_app by reflexivity.
    destruct (DCinuse d); [apply setDCSignal_sections | reflexivity].
  - rewrite setPower_trace_on. rewrite sections_ok_app by reflexivity.
    destruct (DCinuse d).
    + rewrite sections_ok_app by apply setDCSignal_sections.
      destruct (isProgTrack d); reflexivity.
    + destruct (isProgTrack d); reflexivity.
  - rewrite setPower_trace_off by discriminate.
    rewrite sections_ok_app by reflexivity.
    destruct (DCinuse d); [apply setDCSignal_sections | reflexivity].
Qed.

(** ** The overload monitor over whole runs *)

Lemma setPower_powerPin (P : Platform) (mode : POWERMODE) (d : MotorDriver) :
  powerPin (state (setPower P mode d)) = powerPin d.
Proof. apply (setPower_config P mode d). Qed.

Lemma setPower_invertPower (P : Platform) (mode : POWERMODE)
    (d : MotorDriver) :
  invertPower (state (setPower P mode d)) = invertPower d.
Proof. apply (setPower_config P mode d). Qed.

Lemma setPower_currentPin (P : Platform) (mode : POWERMODE)
    (d : MotorDriver) :
  currentPin (state (setPower P mode d)) = currentPin d.
Proof. apply (setPower_config P mode d). Qed.

Lemma setPower_senseOffset (P : Platform) (mode : POWERMODE)
    (d : MotorDriver) :
  senseOffset (state (setPower P mode d)) = senseOffset d.
Proof. apply (setPower_config P mode d). Qed.

Lemma setPower_faultPin (P : Platform) (mode : POWERMODE)
    (d : MotorDriver) :
  faultPin (state (setPower P mode d)) = faultPin d.
Proof. apply (setPower_config P mode d). Qed.

Lemma setPower_rawCurrentTripValue (P : Platform) (mode : POWERMODE)
    (d : MotorDriver) :
  rawCurrentTripValue (state (setPower P mode d)) = rawCurrentTripValue d.
Proof. apply (setPower_frame P mode d). Qed.

Lemma setPower_progTripValue (P : Platform) (mode : POWERMODE)
    (d : MotorDriver) :
  progTripValue (state (setPower P mode d)) = progTripValue d.
Proof. apply (setPower_frame P mode d). Qed.

Lemma setPower_lastSampleTaken (P : Platform) (mode : POWERMODE)
    (d : MotorDriver) :
  lastSampleTaken (state (setPower P mode d)) = lastSampleTaken d.
Proof. apply (setPower_frame P mode d). Qed.

Ltac config_fields :=
  rewrite ?setPower_powerPin, ?setPower_invertPower, ?setPower_currentPin,
    ?setPower_senseOffset, ?setPower_faultPin,
    ?setPower_rawCurrentTripValue, ?setPower_progTripValue,
    ?setPower_lastSampleTaken.

Ltac settle := repeat (progress (config_fields; power_fields; fields)).

(** Splitting one check into its branches: rate limited; power off;
    power on with or without a fault indication, below the threshold or
    not; power in overload. *)
Ltac check_cases P cfp env up d :=
  unfold check, checkPowerOverload; mrun;
  destruct (rate_limited env d) eqn:Hlimited; mrun;
  [ | destruct (powerMode d) eqn:Hmode; mrun;
      [ |
        rewrite ?(reading_ext P env
                    (set_lastSampleTaken (millis_stamp env) d) d)
          by reflexivity;
        destruct (reading P env d <? 0) eqn:Hfault; mrun;
        [ destruct cfp; mrun;
          destruct (wrap_int P (- reading P env d) <? tripValue_of up d)
            eqn:Hbelow; mrun;
          rewrite ?Hbelow, ?Z.ltb_irrefl; mrun
        | destruct (reading P env d <? tripValue_of up d) eqn:Hbelow; mrun ]
      | ] ].

Ltac tail_cases :=
  repeat match goal with
         | |- context [if ?c then _ else _] => destruct c eqn:?; mrun
         | |- context [when ?c _] => destruct c eqn:?; mrun
         end.

(** What no check changes: the pins, the offset and the thresholds. *)
Lemma check_config (P : Platform) (cfp : bool) (env : Env) (up : bool)
    (d : MotorDriver) :
  let d' := check P cfp env up d in
  powerPin d' = powerPin d /\ invertPower d' = invertPower d
  /\ currentPin d' = currentPin d /\ senseOffset d' = senseOffset d
  /\ faultPin d' = faultPin d
  /\ rawCurrentTripValue d' = rawCurrentTripValue d
  /\ progTripValue d' = progTripValue d.
Proof.
  cbv zeta. check_cases P cfp env up d; tail_cases; settle; repeat split.
Qed.

Lemma check_tripValue (P : Platform) (cfp : bool) (env : Env) (up up' : bool)
    (d : MotorDriver) :
  tripValue_of up' (check P cfp env up d) = tripValue_of up' d.
Proof.
  destruct (check_config P cfp env up d) as (_ & _ & _ & _ & _ & H1 & H2).
  unfold tripValue_of. rewrite H1, H2. reflexivity.
Qed.

Lemma check_limited (P : Platform) (cfp : bool) (env : Env) (up : bool)
    (tn : Z) (d : MotorDriver) :
  rate_limited env d = true ->
  checkPowerOverload P cfp env up tn d = mkOutcome tt d [].
Proof.
  intros H. unfold checkPowerOverload, bind, gets. simpl. rewrite H.
  reflexivity.
Qed.

Lemma check_healthy_trace (P : Platform) (cfp : bool) (env : Env)
    (up : bool) (tn : Z) (d : MotorDriver) :
  healthy P env up d = true ->
  trace (checkPowerOverload P cfp env up tn d) = [].
Proof.
  unfold healthy. rewrite !andb_true_iff, negb_true_iff.
  intros [[[Hg Hm] Hr] Ht].
  assert (Hm' : powerMode d = ON)
    by (destruct (powerMode d); discriminate || reflexivity).
  apply Z.leb_le in Hr.
  assert (Hneg : (reading P env d <? 0) = false) by (apply Z.ltb_ge; lia).
  unfold checkPowerOverload. mrun. rewrite Hg. mrun. rewrite Hm'. mrun.
  rewrite (reading_ext P env _ d) by reflexivity.
  rewrite Hneg. mrun. rewrite Ht. mrun. tail_cases; reflexivity.
Qed.

Lemma check_off (P : Platform) (cfp : bool) (env : Env) (up : bool)
    (d : MotorDriver) :
  powerMode d = OFF ->
  powerMode (check P cfp env up d) = OFF
  /\ trace (checkPowerOverload P cfp env up 0 d) = [].
Proof.
  intros Hoff.
  destruct (rate_limited env d) eqn:Hg.
  - unfold check. rewrite check_limited by exact Hg. auto.
  - unfold check, checkPowerOverload. mrun. rewrite Hg. mrun.
    rewrite Hoff. mrun. auto.
Qed.

(** X7.  The monitor never energises a channel that is switched off: over
    any run of checks, with any readings, a channel whose power mode is
    [OFF] stays [OFF] and no hardware operation is performed. *)
Theorem checks_keep_off (P : Platform) (cfp up : bool) (envs : list Env)
    (d : MotorDriver) :
  powerMode d = OFF ->
  powerMode (checks P cfp up envs d) = OFF
  /\ checks_trace P cfp up envs d = [].
Proof.
  revert d. induction envs as [|env rest IH]; intros d Hoff.
  - auto.
  - destruct (check_off P cfp env up d Hoff) as [Hmode Htrace].
    destruct (IH _ Hmode) as [Hm Ht].
    simpl. rewrite Htrace, Ht. auto.
Qed.

Lemma checks_keep_off_witness :
  powerMode (checks avr_mega false false (polls 50 0 700 1000 true)
               (channel avr_mega 765 2000)) = OFF.
Proof.
  apply (checks_keep_off avr_mega false false (polls 50 0 700 1000 true)
           (channel avr_mega 765 2000)).
  vm_compute. reflexivity.
Defined.

Lemma reading_no_sense (P : Platform) (env : Env) (d : MotorDriver) :
  currentPin d = UNUSED_PIN P -> reading P env d = 0.
Proof.
  intros H. unfold reading, getCurrentRaw. mstep.
  apply Z.eqb_eq in H. rewrite H. reflexivity.
Qed.

Lemma check_no_sense (P : Platform) (cfp : bool) (env : Env) (up : bool)
    (d : MotorDriver) :
  currentPin d = UNUSED_PIN P -> 0 < tripValue_of up d ->
  powerMode d = ON ->
  powerMode (check P cfp env up d) = ON
  /\ trace (checkPowerOverload P cfp env up 0 d) = [].
Proof.
  intros Hc Ht Hon.
  destruct (rate_limited env d) eqn:Hg.
  - unfold check. rewrite check_limited by exact Hg. auto.
  - assert (Hh : healthy P env up d = true).
    { unfold healthy. rewrite Hg, Hon, (reading_no_sense P env d Hc).
      simpl. apply Z.ltb_lt. exact Ht. }
    split; [|apply check_healthy_trace; exact Hh].
    pose proof (check_healthy P cfp env up d Hh) as Hstep.
    cbv zeta in Hstep. rewrite Hstep.
    repeat match goal with
           | |- context [if ?c then _ else _] => destruct c
           end; exact Hon.
Qed.

(** X8.  Without a current-sense pin there is no overload protection:
    with a positive trip threshold, a channel that is [ON] stays [ON] over
    any run of checks, whatever the ADC and the fault pin read, and the
    monitor performs no hardware operation. *)
Theorem checks_without_current_sense (P : Platform) (cfp up : bool)
    (envs : list Env) (d : MotorDriver) :
  canMeasureCurrent P d = false ->
  0 < tripValue_of up d ->
  powerMode d = ON ->
  powerMode (checks P cfp up envs d) = ON
  /\ checks_trace P cfp up envs d = [].
Proof.
  unfold canMeasureCurrent. rewrite negb_false_iff, Z.eqb_eq.
  revert d. induction envs as [|env rest IH]; intros d Hc Ht Hon.
  - auto.
  - destruct (check_no_sense P cfp env up d Hc Ht Hon) as [Hmode Htrace].
    destruct (check_config P cfp env up d) as (_ & _ & Hc' & _).
    destruct (IH (check P cfp env up d)) as [Hm Htr];
      [ rewrite Hc'; exact Hc | rewrite check_tripValue; exact Ht
      | exact Hmode | ].
    simpl. rewrite Htrace, Htr. auto.
Qed.

Lemma checks_without_current_sense_witness :
  powerMode (checks avr_mega false false (polls 50 1000 700 1023 true)
               (fault_only_track avr_mega)) = ON.
Proof.
  apply (checks_without_current_sense avr_mega false false
           (polls 50 1000 700 1023 true) (fault_only_track avr_mega));
    vm_compute; reflexivity.
Defined.

Lemma next_overload_wait_bound (P : Platform) (w : Z) :
  16 <= int_bits P -> 0 <= w ->
  0 <= next_overload_wait P w < 20000
  /\ (w < 10000 -> next_overload_wait P w = 2 * w).
Proof.
  intros Hb Hw. unfold next_overload_wait.
  destruct (10000 <=? w) eqn:Hc; [lia|]. apply Z.leb_gt in Hc.
  assert (Hd : wrap_uint P (w * 2) = w * 2).
  { apply wrap_unsigned_id; [lia|]. unfold max_unsigned.
    assert (2 ^ 16 <= 2 ^ int_bits P) by (apply Z.pow_le_mono_r; lia).
    change (2 ^ 16) with 65536 in *. lia. }
  rewrite Hd. lia.
Qed.

Lemma check_schedule (P : Platform) (cfp : bool) (env : Env) (up : bool)
    (d : MotorDriver) :
  16 <= int_bits P ->
  0 <= POWER_SAMPLE_OVERLOAD_WAIT P < 20000 ->
  schedule_ok P d -> schedule_ok P (check P cfp env up d).
Proof.
  intros Hb Hfloor (Hc & Hw & Hd).
  pose proof (next_overload_wait_bound P (power_sample_overload_wait d) Hb
                ltac:(lia)) as [Hnext _].
  assert (Hinc : power_good_counter d < 100 ->
                 wrap_uint P (power_good_counter d + 1)
                 = power_good_counter d + 1).
  { intros Hlt. apply wrap_unsigned_id; [lia|]. unfold max_unsigned.
    assert (2 ^ 16 <= 2 ^ int_bits P) by (apply Z.pow_le_mono_r; lia).
    change (2 ^ 16) with 65536 in *. lia. }
  unfold schedule_ok.
  check_cases P cfp env up d; tail_cases; settle;
    repeat match goal with
           | H : (_ <? _) = true |- _ => apply Z.ltb_lt in H
           | H : (_ <? _) = false |- _ => apply Z.ltb_ge in H
           end;
    try rewrite Hinc by lia; lia.
Qed.

(** X9.  The overload schedule stays within its bounds over any run of
    checks: the good-sample counter remains in 0..100, the backoff below
    20000 ms, and the poll interval never exceeds the largest of
    [POWER_SAMPLE_ON_WAIT], [POWER_SAMPLE_OFF_WAIT] and 19999 ms. *)
Theorem checks_keep_schedule (P : Platform) (cfp up : bool)
    (envs : list Env) (d : MotorDriver) :
  16 <= int_bits P ->
  0 <= POWER_SAMPLE_OVERLOAD_WAIT P < 20000 ->
  schedule_ok P d ->
  schedule_ok P (checks P cfp up envs d).
Proof.
  intros Hb Hfloor. revert d.
  induction envs as [|env rest IH]; intros d Hok; [exact Hok|].
  simpl. apply IH. apply check_schedule; assumption.
Qed.

Lemma checks_keep_schedule_witness :
  schedule_ok avr_mega
    (checks avr_mega false false (polls 40 20000 20000 1000 false)
       (main_track avr_mega 127)).
Proof.
  apply (checks_keep_schedule avr_mega false false
           (polls 40 20000 20000 1000 false) (main_track avr_mega 127));
    vm_compute; repeat split; discriminate.
Defined.

(** X10.  Every hardware operation of the monitor respects the interrupt
    discipline: in the trace of [setDCSignal], of [setPower] and of
    [checkPowerOverload], pin and port writes happen only between
    [noInterrupts] and [interrupts], such sections are never nested, the
    PWM and diagnostic calls stay outside them, and interrupts are enabled
    again when the call returns. *)
Theorem interrupt_discipline (P : Platform) (cfp : bool) (env : Env)
    (up : bool) (tn : Z) (mode : POWERMODE) (speedcode : Z)
    (d : MotorDriver) :
  sections_ok false (trace (setDCSignal P speedcode d)) = true
  /\ sections_ok false (trace (setPower P mode d)) = true
  /\ sections_ok false (trace (checkPowerOverload P cfp env up tn d)) = true.
Proof.
  split; [apply setDCSignal_sections|].
  split; [apply setPower_sections|].
  check_cases P cfp env up d; tail_cases;
    cbn [app]; rewrite ?app_nil_r, <- ?app_assoc;
    repeat first
      [ rewrite sections_ok_app by apply setPower_sections
      | progress cbn [sections_ok negb andb app] ];
    reflexivity.
Qed.

Lemma check_stamps (P : Platform) (cfp : bool) (env : Env) (up : bool)
    (d : MotorDriver) :
  rate_limited env d = false ->
  lastSampleTaken (check P cfp env up d) = millis_stamp env.
Proof.
  intros Hg. check_cases P cfp env up d; [discriminate Hg | ..];
    tail_cases; settle; reflexivity.
Qed.

(** X11.  The rate limit works on the elapsed time modulo 2^32, so it
    survives the roll-over of [millis()]: when [elapsed] milliseconds have
    passed since [lastSampleTaken], the call is rate limited exactly when
    [elapsed < sampleDelay].  A rate-limited call changes nothing and
    performs no hardware operation; any other call records the new time. *)
Theorem rate_limit_rollover (P : Platform) (cfp : bool) (env : Env)
    (up : bool) (tn : Z) (d : MotorDriver) (elapsed : Z) :
  0 <= elapsed < 2 ^ 32 ->
  millis_gate env = wrap_u32 (lastSampleTaken d + elapsed) ->
  rate_limited env d = (elapsed <? sampleDelay d)
  /\ (if elapsed <? sampleDelay d
      then checkPowerOverload P cfp env up tn d = mkOutcome tt d []
      else lastSampleTaken (state (checkPowerOverload P cfp env up tn d))
           = millis_stamp env).
Proof.
  intros He Hgate.
  assert (Hrl : rate_limited env d = (elapsed <? sampleDelay d)).
  { unfold rate_limited. rewrite Hgate. unfold wrap_u32, wrap_unsigned.
    rewrite Zminus_mod_idemp_l.
    replace (lastSampleTaken d + elapsed - lastSampleTaken d) with elapsed
      by lia.
    rewrite Z.mod_small by lia. reflexivity. }
  split; [exact Hrl|].
  destruct (elapsed <? sampleDelay d).
  - apply check_limited. exact Hrl.
  - rewrite check_any_track. apply check_stamps. exact Hrl.
Qed.

Lemma rate_limit_rollover_witness :
  let d := set_sampleDelay 100
             (set_lastSampleTaken 4294967290 (main_track avr_mega 127)) in
  rate_limited (at_time 50 0 false) d = true
  /\ rate_limited (at_time 94 0 false) d = false.
Proof.
  cbv zeta. split.
  - apply (proj1 (rate_limit_rollover avr_mega false (at_time 50 0 false)
                    false 0
                    (set_sampleDelay 100
                       (set_lastSampleTaken 4294967290
                          (main_track avr_mega 127)))
                    56 ltac:(lia) ltac:(vm_compute; reflexivity))).
  - apply (proj1 (rate_limit_rollover avr_mega false (at_time 94 0 false)
                    false 0
                    (set_sampleDelay 100
                       (set_lastSampleTaken 4294967290
                          (main_track avr_mega 127)))
                    100 ltac:(lia) ltac:(vm_compute; reflexivity))).
Defined.

(** X12.  Any fault indication cuts the power first.  In a check that is
    not rate limited, with power [ON] and a negative reading (the fault
    pin is flagged), the first level written to the power pin is the
    inactive one; exactly one more write follows, and it is the active
    level only when [commonFaultPin] is set and the magnitude is below the
    threshold. *)
Theorem fault_cuts_power_first (P : Platform) (cfp : bool) (env : Env)
    (up : bool) (tn : Z) (d : MotorDriver) :
  rate_limited env d = false ->
  powerMode d = ON ->
  reading P env d < 0 ->
  io_writes (trace (checkPowerOverload P cfp env up tn d))
  = [(powerPin d, power_level d OVERLOAD);
     (powerPin d,
      power_level d
        (if cfp && (magnitude P env d <? tripValue_of up d)
         then ON else OVERLOAD))].
Proof.
  intros Hg Hon Hneg. apply Z.ltb_lt in Hneg.
  unfold magnitude. cbv zeta. rewrite Hneg.
  check_cases P cfp env up d; try discriminate; cbn [andb];
    tail_cases;
    rewrite ?app_nil_r, <- ?app_assoc, ?io_writes_app,
      ?setPower_io_writes;
    unfold power_level; settle;
    cbn [POWERMODE_eqb io_writes flat_map app];
    reflexivity.
Qed.

Lemma fault_cuts_power_first_witness :
  io_writes (trace (checkPowerOverload avr_mega true (at_time 1000 300 true)
                      false 0 (main_track avr_mega 4)))
  = [(3, LOW); (3, HIGH)].
Proof.
  apply (fault_cuts_power_first avr_mega true (at_time 1000 300 true) false 0
           (main_track avr_mega 4)); vm_compute; reflexivity.
Defined.

(** X13.  An overload cuts the power and reports what was measured.  In a
    tripping check every level written to the power pin is the inactive
    one (once, or twice when the fault pin was flagged as well), and the
    single overload report logs the milliamps of the measured magnitude
    against the milliamps of the threshold. *)
Theorem trip_cuts_power_and_reports (P : Platform) (cfp : bool) (env : Env)
    (up : bool) (tn : Z) (d : MotorDriver) :
  tripping P env up d = true ->
  let r := checkPowerOverload P cfp env up tn d in
  io_writes (trace r)
  = repeat (powerPin d, power_level d OVERLOAD)
      (if reading P env d <? 0 then 2 else 1)
  /\ overload_reports (trace r)
     = [(raw2mA P d (magnitude P env d), raw2mA P d (tripValue_of up d))].
Proof.
  unfold tripping, magnitude. rewrite !andb_true_iff, negb_true_iff.
  intros [[Hg Hm] Ht]. cbv zeta.
  assert (Hon : powerMode d = ON)
    by (destruct (powerMode d); discriminate || reflexivity).
  clear Hm.
  assert (Ht' : ((if reading P env d <? 0
                  then wrap_int P (- reading P env d)
                  else reading P env d) <? tripValue_of up d) = false)
    by (apply Z.ltb_ge; apply Z.leb_le in Ht; exact Ht).
  clear Ht.
  check_cases P cfp env up d; try discriminate; tail_cases;
    rewrite ?app_nil_r, <- ?app_assoc, ?io_writes_app,
      ?overload_reports_app, ?setPower_io_writes, ?setPower_no_report;
    unfold power_level, raw2mA; settle;
    rewrite ?setPower_senseFactor; fields;
    cbn [POWERMODE_eqb io_writes overload_reports flat_map app repeat];
    split; reflexivity.
Qed.

Lemma trip_cuts_power_and_reports_witness :
  overload_reports
    (trace (checkPowerOverload avr_mega false (at_time 1000 1000 false)
              false 0 (main_track avr_mega 127)))
  = [(2988, 1999)].
Proof.
  apply (proj2 (trip_cuts_power_and_reports avr_mega false
                  (at_time 1000 1000 false) false 0
                  (main_track avr_mega 127)
                  ltac:(vm_compute; reflexivity))).
Defined.

Lemma last_cons_default {A : Type} (l : list A) (a x y : A) :
  last (a :: l) x = last (a :: l) y.
Proof.
  revert a. induction l as [|b l IH]; intros a; [reflexivity|].
  change (last (b :: l) x = last (b :: l) y). apply IH.
Qed.

Lemma last_app_default {A : Type} (l1 l2 : list A) (x : A) :
  last (l1 ++ l2) x = last l2 (last l1 x).
Proof.
  destruct l2 as [|a l2]; [rewrite app_nil_r; reflexivity|].
  rewrite (last_cons_default l2 a (last l1 x) x).
  induction l1 as [|b l1 IH]; [reflexivity|].
  rewrite <- IH. simpl. destruct l1; reflexivity.
Qed.

Lemma check_pin_level (P : Platform) (cfp : bool) (env : Env) (up : bool)
    (d : MotorDriver) :
  last (io_writes (trace (checkPowerOverload P cfp env up 0 d)))
    (powerPin d, power_level d (powerMode d))
  = (powerPin d, power_level d (powerMode (check P cfp env up d))).
Proof.
  check_cases P cfp env up d; tail_cases;
    rewrite ?app_nil_r, <- ?app_assoc, ?io_writes_app,
      ?setPower_io_writes;
    unfold power_level; settle; rewrite ?Hmode;
    cbn [POWERMODE_eqb io_writes flat_map app last];
    reflexivity.
Qed.

(** X14.  The power pin always shows the stored power mode.  Over any run
    of checks, the level last written to the power pin (or, when the run
    writes nothing, the level of the mode before the run) is the level
    that [setPower] writes for the power mode the run ends in. *)
Theorem power_pin_follows_mode (P : Platform) (cfp up : bool)
    (envs : list Env) (d : MotorDriver) :
  last (io_writes (checks_trace P cfp up envs d))
    (powerPin d, power_level d (powerMode d))
  = (powerPin d, power_level d (powerMode (checks P cfp up envs d))).
Proof.
  revert d. induction envs as [|env rest IH]; intros d; [reflexivity|].
  simpl. rewrite io_writes_app, last_app_default, check_pin_level.
  destruct (check_config P cfp env up d) as (Hpin & Hinv & _).
  specialize (IH (check P cfp env up d)).
  unfold power_level in *. rewrite Hpin, Hinv in IH. exact IH.
Qed.

Lemma next_overload_wait_ceiling (P : Platform) :
  next_overload_wait P 10000 = 10000.
Proof. reflexivity. Qed.

Lemma backoff_reaches_ceiling (P : Platform) (k : nat) :
  16 <= int_bits P ->
  forall w : Z, 0 < w -> 10000 <= 2 ^ Z.of_nat k * w ->
  Nat.iter (S k) (next_overload_wait P) w = 10000.
Proof.
  intros Hb. induction k as [|k IH]; intros w Hw Hk.
  - change (Nat.iter 1 (next_overload_wait P) w)
      with (next_overload_wait P w).
    change (2 ^ Z.of_nat 0) with 1 in Hk. unfold next_overload_wait.
    replace (10000 <=? w) with true by (symmetry; apply Z.leb_le; lia).
    reflexivity.
  - rewrite Nat.iter_succ_r.
    destruct (Z_lt_ge_dec w 10000) as [Hlt|Hge].
    + destruct (next_overload_wait_bound P w Hb ltac:(lia)) as [_ Hdouble].
      rewrite (Hdouble Hlt). apply IH; [lia|].
      rewrite Nat2Z.inj_succ, Z.pow_succ_r in Hk by lia. lia.
    + assert (Hn : next_overload_wait P w = 10000).
      { unfold next_overload_wait.
        replace (10000 <=? w) with true by (symmetry; apply Z.leb_le; lia).
        reflexivity. }
      rewrite Hn. apply IH; [lia|].
      assert (1 <= 2 ^ Z.of_nat k) by (apply Z.pow_le_mono_r with (b := 0); lia).
      nia.
Qed.

Lemma backoff_stays_at_ceiling (P : Platform) (n : nat) :
  Nat.iter n (next_overload_wait P) 10000 = 10000.
Proof. induction n as [|n IH]; [reflexivity|]. simpl. rewrite IH. reflexivity. Qed.

Lemma backoff_zero_stays (P : Platform) (n : nat) :
  0 < int_bits P -> Nat.iter n (next_overload_wait P) 0 = 0.
Proof.
  intros Hb. induction n as [|n IH]; [reflexivity|]. simpl. rewrite IH.
  unfold next_overload_wait. simpl. unfold wrap_uint, wrap_unsigned.
  apply Z.mod_0_l. apply Z.pow_nonzero; lia.
Qed.

(** X15.  A persistent short is polled at the ceiling.  In any run of
    consecutive overloads that starts with a positive backoff, every delay
    from the sixteenth overload on is exactly 10000 ms; when the backoff
    starts at 0, doubling never leaves 0 and every delay is 0. *)
Theorem persistent_short_delays (P : Platform) (cfp up : bool)
    (envs : list (Env * Env)) (d : MotorDriver) (k : nat) :
  16 <= int_bits P ->
  all_trips P cfp up envs d = true ->
  0 <= power_sample_overload_wait d ->
  (k < length envs)%nat ->
  nth k (trip_delays P cfp up envs d) 0
  = if power_sample_overload_wait d =? 0 then 0
    else if (15 <=? k)%nat then 10000
    else Nat.iter k (next_overload_wait P) (power_sample_overload_wait d).
Proof.
  intros Hb Hall Hw Hk.
  rewrite (trip_delays_unfold P cfp up envs d Hall).
  pose (f := fun n => Nat.iter n (next_overload_wait P)
                        (power_sample_overload_wait d)).
  fold f.
  rewrite (nth_indep _ 0 (f 0%nat))
    by (rewrite length_map, length_seq; exact Hk).
  rewrite (map_nth f), seq_nth by exact Hk. simpl Nat.add. unfold f.
  destruct (power_sample_overload_wait d =? 0) eqn:Hz.
  - apply Z.eqb_eq in Hz. rewrite Hz. apply backoff_zero_stays. lia.
  - apply Z.eqb_neq in Hz. destruct (15 <=? k)%nat eqn:H15; [|reflexivity].
    apply Nat.leb_le in H15.
    replace k with ((k - 15) + 15)%nat by lia.
    rewrite Nat.iter_add.
    rewrite (backoff_reaches_ceiling P 14 Hb)
      by (try change (2 ^ Z.of_nat 14) with 16384; lia).
    apply backoff_stays_at_ceiling.
Qed.

Lemma persistent_short_delays_witness :
  nth 20 (trip_delays avr_mega false false (poll_pairs 24 20000 20000 1000)
            (main_track avr_mega 127)) 0 = 10000.
Proof.
  apply (persistent_short_delays avr_mega false false
           (poll_pairs 24 20000 20000 1000) (main_track avr_mega 127) 20);
    vm_compute; first [reflexivity | discriminate | lia].
Defined.

(** ** Calibration, continued *)

(** [raw2mA] when nothing wraps. *)
Lemma raw2mA_exact (P : Platform) (d : MotorDriver) (raw : Z) :
  0 < int_bits P <= 32 ->
  0 < senseScale P -> 0 < senseFactorInternal d ->
  0 <= raw <= INT_MAX P ->
  raw * senseFactorInternal d <= INT32_MAX ->
  raw * senseFactorInternal d / senseScale P <= UINT_MAX P ->
  raw2mA P d raw = raw * senseFactorInternal d / senseScale P.
Proof.
  intros Hb Hs Hf Hr Hprod Hq. unfold raw2mA.
  assert (Hb0 : 0 < int_bits P) by lia.
  pose proof (INT_MAX_le_INT32_MAX P Hb) as H32.
  rewrite (wrap_int_id_nonneg P raw Hb0 Hr).
  rewrite (wrap_i32_id raw) by lia.
  rewrite (wrap_i32_id (raw * senseFactorInternal d)) by nia.
  rewrite Z.quot_div_nonneg by nia.
  apply wrap_uint_id; [exact Hb0|].
  split; [apply Z.div_pos; nia | exact Hq].
Qed.

(** X16.  Raw to milliamps and back: for a raw value whose product with
    the sense factor fits 32 bits and whose milliamp value fits an
    [unsigned int], [mA2raw (raw2mA raw)] is at most [raw] and less than
    [senseScale / senseFactorInternal + 1] below it. *)
Theorem raw_round_trip (P : Platform) (d : MotorDriver) (raw : Z) :
  0 < int_bits P <= 32 ->
  0 < senseScale P ->
  0 < senseFactorInternal d ->
  0 <= raw <= INT_MAX P ->
  raw * senseFactorInternal d <= INT32_MAX ->
  raw * senseFactorInternal d / senseScale P <= UINT_MAX P ->
  let back := mA2raw P d (raw2mA P d raw) in
  back <= raw
  /\ senseFactorInternal d * (raw - back)
     < senseScale P + senseFactorInternal d.
Proof.
  intros Hb Hs Hf Hr Hprod Hq.
  assert (Hb0 : 0 < int_bits P) by lia.
  pose proof (max_unsigned_ge_signed (int_bits P) Hb0) as Hu.
  fold (INT_MAX P) in Hu. fold (UINT_MAX P) in Hu.
  rewrite (raw2mA_exact P d raw Hb Hs Hf Hr Hprod Hq).
  set (f := senseFactorInternal d) in *. set (s := senseScale P) in *.
  set (m := raw * f / s) in *.
  assert (Hm0 : 0 <= m) by (apply Z.div_pos; nia).
  assert (Hms : m * s <= raw * f)
    by (rewrite Z.mul_comm; apply Z.mul_div_le; lia).
  assert (Hms' : raw * f < m * s + s).
  { pose proof (Z.mul_succ_div_gt (raw * f) s Hs) as H. fold m in H. nia. }
  set (b := m * s / f).
  assert (Hb1 : 0 <= b) by (apply Z.div_pos; nia).
  assert (Hbf : b * f <= m * s)
    by (rewrite Z.mul_comm; apply Z.mul_div_le; lia).
  assert (Hbf' : m * s < b * f + f).
  { pose proof (Z.mul_succ_div_gt (m * s) f Hf) as H. fold b in H. nia. }
  assert (Hbr : b <= raw) by nia.
  cbv zeta.
  rewrite (mA2raw_exact P d m Hb0 Hs Hf) by (fold f s b; lia).
  fold s f b. split; [exact Hbr | nia].
Qed.

Lemma raw_round_trip_witness :
  mA2raw avr_mega (channel avr_mega 765 2000)
    (raw2mA avr_mega (channel avr_mega 765 2000) 669) <= 669.
Proof.
  apply (proj1 (raw_round_trip avr_mega (channel avr_mega 765 2000) 669
                  ltac:(vm_compute; split; [reflexivity | discriminate])
                  ltac:(reflexivity) ltac:(reflexivity)
                  ltac:(vm_compute; split; discriminate)
                  ltac:(vm_compute; discriminate)
                  ltac:(vm_compute; discriminate))).
Defined.

(** X17.  Both conversions are monotone where nothing wraps: a larger
    milliamp value never converts to a smaller raw value, and a larger raw
    value never converts to fewer milliamps. *)
Theorem calibration_monotone (P : Platform) (d : MotorDriver) (x y : Z) :
  0 < int_bits P <= 32 ->
  0 < senseScale P ->
  0 < senseFactorInternal d ->
  0 <= x <= y ->
  y <= INT_MAX P ->
  y * senseScale P <= INT32_MAX ->
  y * senseScale P / senseFactorInternal d <= UINT_MAX P ->
  y * senseFactorInternal d <= INT32_MAX ->
  y * senseFactorInternal d / senseScale P <= UINT_MAX P ->
  mA2raw P d x <= mA2raw P d y /\ raw2mA P d x <= raw2mA P d y.
Proof.
  intros Hb Hs Hf Hxy Hy Hps Hqs Hpf Hqf.
  assert (Hb0 : 0 < int_bits P) by lia.
  pose proof (max_unsigned_ge_signed (int_bits P) Hb0) as Hu.
  fold (INT_MAX P) in Hu. fold (UINT_MAX P) in Hu.
  assert (Hd1 : x * senseScale P / senseFactorInternal d
                <= y * senseScale P / senseFactorInternal d)
    by (apply Z.div_le_mono; nia).
  assert (Hd2 : x * senseFactorInternal d / senseScale P
                <= y * senseFactorInternal d / senseScale P)
    by (apply Z.div_le_mono; nia).
  rewrite (mA2raw_exact P d x Hb0 Hs Hf) by (try nia; lia).
  rewrite (mA2raw_exact P d y Hb0 Hs Hf) by (try nia; lia).
  rewrite (raw2mA_exact P d x Hb Hs Hf) by (try nia; lia).
  rewrite (raw2mA_exact P d y Hb Hs Hf) by (try nia; lia).
  split; assumption.
Qed.

Lemma calibration_monotone_witness :
  mA2raw avr_mega (channel avr_mega 765 2000) 250
  <= mA2raw avr_mega (channel avr_mega 765 2000) 2000.
Proof.
  apply (proj1 (calibration_monotone avr_mega (channel avr_mega 765 2000)
                  250 2000
                  ltac:(vm_compute; split; [reflexivity | discriminate])
                  ltac:(reflexivity) ltac:(reflexivity)
                  ltac:(lia)
                  ltac:(vm_compute; discriminate)
                  ltac:(vm_compute; discriminate)
                  ltac:(vm_compute; discriminate)
                  ltac:(vm_compute; discriminate)
                  ltac:(vm_compute; discriminate))).
Defined.

(** ** The constructor, continued *)

(** X18.  The constructor sets [sampleDelay] to 0, so the first
    [checkPowerOverload] on a new channel is never rate limited, whatever
    [millis()] returns and whether or not [setPower] was called first; it
    records its time in [lastSampleTaken]. *)
Theorem first_check_is_not_rate_limited (P : Platform) (a : CtorArgs)
    (e : CtorEnv) (this0 : MotorDriver) (mode : POWERMODE) (cfp : bool)
    (env : Env) (up : bool) (tn : Z) :
  let d := state (MotorDriver_ctor P a e this0) in
  rate_limited env d = false
  /\ rate_limited env (state (setPower P mode d)) = false
  /\ lastSampleTaken
       (state (checkPowerOverload P cfp env up tn (state (setPower P mode d))))
     = millis_stamp env.
Proof.
  cbv zeta.
  assert (Hnat : forall x, (wrap_u32 x <? 0) = false).
  { intros x. apply Z.ltb_ge.
    apply (wrap_unsigned_range 32 x). lia. }
  assert (H1 : rate_limited env (state (MotorDriver_ctor P a e this0))
               = false).
  { unfold rate_limited, MotorDriver_ctor. cbn [state sampleDelay].
    apply Hnat. }
  assert (H2 : rate_limited env
                 (state (setPower P mode
                           (state (MotorDriver_ctor P a e this0))))
               = false).
  { unfold rate_limited. rewrite setPower_sampleDelay.
    unfold MotorDriver_ctor. cbn [state sampleDelay]. apply Hnat. }
  split; [exact H1|]. split; [exact H2|].
  rewrite check_any_track. apply check_stamps. exact H2.
Qed.

(** ** The interrupt-driven ADC *)

Lemma bitSet_bits (reg bit i : Z) :
  0 <= bit < 8 -> 0 <= i ->
  Z.testbit (wrap_byte (bitSet reg bit)) i
  = (i <? 8) && (Z.testbit reg i || (i =? bit)).
Proof.
  intros Hbit Hi. unfold wrap_byte, wrap_unsigned, bitSet.
  destruct (i <? 8) eqn:Hlt.
  - apply Z.ltb_lt in Hlt.
    rewrite Z.mod_pow2_bits_low by lia.
    rewrite Z.lor_spec, Z.shiftl_1_l, Z.pow2_bits_eqb by lia.
    rewrite (Z.eqb_sym bit i). reflexivity.
  - apply Z.ltb_ge in Hlt. apply Z.mod_pow2_bits_high. lia.
Qed.

Lemma bytes_combine (high low : Z) :
  0 <= high -> 0 <= low < 256 ->
  Z.lor (Z.shiftl high 8) low = 256 * high + low.
Proof.
  intros Hh Hl.
  assert (Hdisj : Z.land (Z.shiftl high 8) low = 0).
  { apply Z.bits_inj'. intros n Hn.
    rewrite Z.land_spec, Z.bits_0.
    destruct (Z_lt_ge_dec n 8) as [Hlt|Hge].
    - rewrite Z.shiftl_spec_low by lia. reflexivity.
    - replace (Z.testbit low n) with false; [apply andb_false_r|].
      symmetry. destruct (Z.eq_dec low 0) as [->|Hnz]; [apply Z.bits_0|].
      apply Z.bits_above_log2; [lia|].
      assert (Z.log2 low < 8) by (apply Z.log2_lt_pow2; lia). lia. }
  rewrite <- Z.lxor_lor by exact Hdisj.
  rewrite <- Z.add_nocarry_lxor by exact Hdisj.
  rewrite Z.shiftl_mul_pow2 by lia. change (2 ^ 8) with 256. lia.
Qed.

(** X19.  [sampleCurrentFromHW] refuses to read while a conversion is
    running (bit [ADSC] set): it returns false and changes neither the
    registers nor the cached sample.  Otherwise it returns true, caches
    [256 * ADCH + ADCL] with the time, and sets bit [ADIF] of [ADCSRA]
    while leaving the other bits of the register as they were. *)
Theorem sampleCurrentFromHW_contract (P : Platform) (K : AvrAdc)
    (millis : Z) (regs : AdcRegisters) (cache : SampleCache) :
  16 <= int_bits P ->
  0 <= ADIF K < 8 ->
  0 <= ADCSRA regs < 256 ->
  0 <= ADCL regs < 256 ->
  0 <= ADCH regs < 128 ->
  let r := sampleCurrentFromHW P K millis regs cache in
  if Z.testbit (ADCSRA regs) (ADSC K)
  then r = (false, regs, cache)
  else fst (fst r) = true
       /\ sampleCurrent (snd r) = 256 * ADCH regs + ADCL regs
       /\ 0 <= sampleCurrent (snd r) <= 32767
       /\ sampleCurrentTimestamp (snd r) = millis
       /\ Z.testbit (ADCSRA (snd (fst r))) (ADIF K) = true
       /\ (forall i, 0 <= i < 8 -> i <> ADIF K ->
             Z.testbit (ADCSRA (snd (fst r))) i
             = Z.testbit (ADCSRA regs) i)
       /\ ADMUX (snd (fst r)) = ADMUX regs.
Proof.
  intros Hb Hif Hsra Hl Hh. cbv zeta. unfold sampleCurrentFromHW.
  destruct (Z.testbit (ADCSRA regs) (ADSC K)); [reflexivity|].
  cbn [fst snd sampleCurrent sampleCurrentTimestamp ADCSRA ADMUX].
  rewrite (bytes_combine (ADCH regs) (ADCL regs)) by lia.
  assert (Hfit : wrap_int P (256 * ADCH regs + ADCL regs)
                 = 256 * ADCH regs + ADCL regs).
  { apply wrap_int_id_nonneg; [lia|]. unfold INT_MAX, max_signed.
    assert (2 ^ 15 <= 2 ^ (int_bits P - 1))
      by (apply Z.pow_le_mono_r; lia).
    change (2 ^ 15) with 32768 in *. lia. }
  rewrite Hfit. repeat split; try lia.
  - rewrite bitSet_bits by lia.
    replace (ADIF K <? 8) with true by (symmetry; apply Z.ltb_lt; lia).
    rewrite Z.eqb_refl, orb_true_r. reflexivity.
  - intros i Hi Hne. rewrite bitSet_bits by lia.
    replace (i <? 8) with true by (symmetry; apply Z.ltb_lt; lia).
    replace (i =? ADIF K) with false by (symmetry; apply Z.eqb_neq; lia).
    rewrite orb_false_r. reflexivity.
Qed.

Lemma sampleCurrentFromHW_contract_witness :
  sampleCurrent
    (snd (sampleCurrentFromHW avr_mega atmega_adc 1234
            {| ADCSRA := 135; ADCL := 44; ADCH := 2; ADMUX := 64 |}
            {| sampleCurrent := 0; sampleCurrentTimestamp := 0 |}))
  = 556.
Proof.
  apply (proj1 (proj2 (sampleCurrentFromHW_contract avr_mega atmega_adc 1234
                         {| ADCSRA := 135; ADCL := 44; ADCH := 2;
                            ADMUX := 64 |}
                         {| sampleCurrent := 0; sampleCurrentTimestamp := 0 |}
                         ltac:(vm_compute; discriminate)
                         ltac:(vm_compute; split; [discriminate | reflexivity])
                         ltac:(vm_compute; split; [discriminate | reflexivity])
                         ltac:(vm_compute; split; [discriminate | reflexivity])
                         ltac:(vm_compute; split; [discriminate | reflexivity])))).
Defined.

(** X20.  [startCurrentFromHW] starts a conversion on the channel of the
    current-sense pin: afterwards the reference bit [REFS0] of [ADMUX] is
    set, the channel field of [ADMUX] holds [(currentPin - A0)] modulo 8
    on a Mega and modulo 32 elsewhere, bit [ADSC] is set, and a
    [sampleCurrentFromHW] issued before the hardware clears [ADSC] is
    refused and leaves the cached sample alone. *)
Theorem startCurrentFromHW_selects_channel (P : Platform) (K : AvrAdc)
    (d : MotorDriver) (regs : AdcRegisters) (cache : SampleCache)
    (millis : Z) :
  5 <= REFS0 K < 8 ->
  0 <= ADSC K < 8 ->
  let regs' := startCurrentFromHW P K d regs in
  Z.testbit (ADMUX regs') (REFS0 K) = true
  /\ Z.land (ADMUX regs') (adc_mux_mask P)
     = (currentPin d - A0 K) mod (adc_mux_mask P + 1)
  /\ Z.testbit (ADCSRA regs') (ADSC K) = true
  /\ sampleCurrentFromHW P K millis regs' cache = (false, regs', cache).
Proof.
  intros Hr Hs. cbv zeta.
  assert (Hadsc : Z.testbit (ADCSRA (startCurrentFromHW P K d regs)) (ADSC K)
                  = true).
  { unfold startCurrentFromHW. cbn [ADCSRA]. rewrite bitSet_bits by lia.
    replace (ADSC K <? 8) with true by (symmetry; apply Z.ltb_lt; lia).
    rewrite Z.eqb_refl, orb_true_r. reflexivity. }
  assert (Hmask : (adc_mux_mask P = 7 \/ adc_mux_mask P = 31))
    by (unfold adc_mux_mask; destruct (arch P); auto).
  assert (Hones : adc_mux_mask P = Z.ones 3 \/ adc_mux_mask P = Z.ones 5)
    by (destruct Hmask as [->| ->]; auto).
  set (c := Z.land (currentPin d - A0 K) (adc_mux_mask P)).
  assert (Hc : c = (currentPin d - A0 K) mod (adc_mux_mask P + 1)).
  { unfold c. destruct Hones as [Ho|Ho]; rewrite Ho, Z.land_ones by lia;
      reflexivity. }
  assert (Hcr : 0 <= c <= adc_mux_mask P).
  { rewrite Hc. pose proof (Z.mod_pos_bound (currentPin d - A0 K)
                              (adc_mux_mask P + 1)). lia. }
  assert (Hmux : ADMUX (startCurrentFromHW P K d regs)
                 = wrap_byte (Z.lor (Z.shiftl 1 (REFS0 K)) c))
    by reflexivity.
  assert (Hdec :
            (Z.testbit (wrap_byte (Z.lor (Z.shiftl 1 (REFS0 K)) c)) (REFS0 K)
             && (Z.land (wrap_byte (Z.lor (Z.shiftl 1 (REFS0 K)) c))
                   (adc_mux_mask P) =? c)) = true).
  { assert (Hrc : REFS0 K = 5 \/ REFS0 K = 6 \/ REFS0 K = 7) by lia.
    destruct Hmask as [Hm|Hm]; rewrite Hm in *;
      destruct Hrc as [Hv|[Hv|Hv]]; rewrite Hv;
      first
        [ apply (range_cases
                   (fun c => Z.testbit (wrap_byte (Z.lor (Z.shiftl 1 _) c)) _
                             && (Z.land (wrap_byte (Z.lor (Z.shiftl 1 _) c)) 7
                                 =? c)) 0 8);
          [vm_compute; reflexivity | simpl; lia]
        | apply (range_cases
                   (fun c => Z.testbit (wrap_byte (Z.lor (Z.shiftl 1 _) c)) _
                             && (Z.land (wrap_byte (Z.lor (Z.shiftl 1 _) c)) 31
                                 =? c)) 0 32);
          [vm_compute; reflexivity | simpl; lia] ]. }
  apply andb_true_iff in Hdec. destruct Hdec as [Hd1 Hd2].
  apply Z.eqb_eq in Hd2.
  rewrite Hmux. split; [exact Hd1|]. split; [rewrite Hd2; exact Hc|].
  split; [exact Hadsc|].
  unfold sampleCurrentFromHW. rewrite Hadsc. reflexivity.
Qed.

Lemma startCurrentFromHW_selects_channel_witness :
  let d := channel avr_mega 765 2000 in
  let regs := {| ADCSRA := 135; ADCL := 0; ADCH := 0; ADMUX := 0 |} in
  Z.land (ADMUX (startCurrentFromHW avr_mega atmega_adc d regs)) 7 = 0
  /\ ADMUX (startCurrentFromHW avr_mega atmega_adc d regs) = 64.
Proof.
  cbv zeta. split; [|vm_compute; reflexivity].
  apply (proj1 (proj2 (startCurrentFromHW_selects_channel avr_mega atmega_adc
                         (channel avr_mega 765 2000)
                         {| ADCSRA := 135; ADCL := 0; ADCH := 0; ADMUX := 0 |}
                         {| sampleCurrent := 0; sampleCurrentTimestamp := 0 |}
                         0
                         ltac:(vm_compute; split; [discriminate | reflexivity])
                         ltac:(vm_compute; split; [discriminate | reflexivity])))).
Defined.

(** ** Fast pins *)

Lemma lnot_mask_bits (port_bits mask i : Z) :
  0 <= port_bits -> 0 <= i ->
  Z.testbit (wrap_unsigned port_bits (Z.lnot mask)) i
  = (i <? port_bits) && negb (Z.testbit mask i).
Proof.
  intros Hw Hi. unfold wrap_unsigned.
  destruct (i <? port_bits) eqn:Hlt.
  - apply Z.ltb_lt in Hlt. rewrite Z.mod_pow2_bits_low by lia.
    rewrite Z.lnot_spec by lia. reflexivity.
  - apply Z.ltb_ge in Hlt. apply Z.mod_pow2_bits_high. lia.
Qed.

Lemma mask_high_bits (port_bits mask i : Z) :
  0 <= mask < 2 ^ port_bits -> port_bits <= i -> Z.testbit mask i = false.
Proof.
  intros Hm Hi. destruct (Z.eq_dec mask 0) as [->|Hnz]; [apply Z.bits_0|].
  apply Z.bits_above_log2; [lia|].
  assert (Z.log2 mask < port_bits) by (apply Z.log2_lt_pow2; lia). lia.
Qed.

(** X21.  The two masks [getFastPin] computes are complementary within
    the port register: they share no bit, together they cover every bit
    of the register, and the register chosen is the port's input register
    exactly when [input] is set. *)
Theorem getFastPin_masks (port_bits : Z) (digitalPinToPort : Z -> Z)
    (digitalPinToBitMask : Z -> Z) (pin : Z) (input : bool) :
  0 <= port_bits ->
  0 <= digitalPinToBitMask pin < 2 ^ port_bits ->
  let fp := getFastPin port_bits digitalPinToPort digitalPinToBitMask
              pin input in
  Z.land (maskHIGH fp) (maskLOW fp) = 0
  /\ Z.lor (maskHIGH fp) (maskLOW fp) = 2 ^ port_bits - 1
  /\ maskHIGH fp = digitalPinToBitMask pin
  /\ inout fp = (if input then InputRegister (digitalPinToPort pin)
                 else OutputRegister (digitalPinToPort pin)).
Proof.
  intros Hw Hm. cbv zeta. unfold getFastPin. cbn [maskHIGH maskLOW inout].
  set (m := digitalPinToBitMask pin) in *.
  repeat split.
  - apply Z.bits_inj'. intros i Hi.
    rewrite Z.land_spec, Z.bits_0, lnot_mask_bits by lia.
    destruct (Z.testbit m i), (i <? port_bits); reflexivity.
  - replace (2 ^ port_bits - 1) with (Z.ones port_bits)
      by (rewrite Z.ones_equiv; lia).
    apply Z.bits_inj'. intros i Hi.
    rewrite Z.lor_spec, lnot_mask_bits by lia.
    destruct (Z_lt_ge_dec i port_bits) as [Hlt|Hge].
    + rewrite Z.ones_spec_low by lia.
      replace (i <? port_bits) with true by (symmetry; apply Z.ltb_lt; lia).
      destruct (Z.testbit m i); reflexivity.
    + rewrite Z.ones_spec_high by lia.
      rewrite (mask_high_bits port_bits m i Hm) by lia.
      replace (i <? port_bits) with false by (symmetry; apply Z.ltb_ge; lia).
      reflexivity.
Qed.

Lemma getFastPin_masks_witness :
  let fp := getFastPin 8 (fun _ => 2) (fun pin => 2 ^ (pin mod 8)) 12 false in
  Z.land (maskHIGH fp) (maskLOW fp) = 0
  /\ Z.lor (maskHIGH fp) (maskLOW fp) = 255.
Proof.
  destruct (getFastPin_masks 8 (fun _ => 2) (fun pin => 2 ^ (pin mod 8))
              12 false ltac:(lia)
              ltac:(vm_compute; split; [discriminate | reflexivity]))
    as (Hand & Hor & _).
  exact (conj Hand Hor).
Defined.

(** ** The DC setting and the power state *)

Lemma check_keeps_dc (P : Platform) (cfp : bool) (env : Env) (up : bool)
    (d : MotorDriver) :
  0 <= curSpeedCode d < 256 ->
  curSpeedCode (check P cfp env up d) = curSpeedCode d
  /\ DCinuse (check P cfp env up d) = DCinuse d.
Proof.
  intros Hbyte.
  assert (Hw : wrap_byte (curSpeedCode d) = curSpeedCode d)
    by (apply wrap_unsigned_id;
        [lia | change (max_unsigned 8) with 255; lia]).
  destruct (DCinuse d) eqn:Hdc;
    check_cases P cfp env up d; tail_cases;
    repeat (rewrite setPower_state; fields; rewrite ?Hdc, ?Hw;
            cbn [POWERMODE_eqb]; fields);
    repeat (progress (fields; rewrite ?Hw, ?Hdc; cbn [POWERMODE_eqb]));
    split; reflexivity.
Qed.

(** X22.  The monitor never loses the throttle setting: over any run of
    checks, through every overload and restore, [curSpeedCode] (a byte)
    and [DCinuse] are what they were before the run. *)
Theorem checks_keep_dc_setting (P : Platform) (cfp up : bool)
    (envs : list Env) (d : MotorDriver) :
  0 <= curSpeedCode d < 256 ->
  curSpeedCode (checks P cfp up envs d) = curSpeedCode d
  /\ DCinuse (checks P cfp up envs d) = DCinuse d.
Proof.
  revert d. induction envs as [|env rest IH]; intros d Hbyte; [auto|].
  destruct (check_keeps_dc P cfp env up d Hbyte) as [Hc Hd].
  destruct (IH (check P cfp env up d)) as [Hc' Hd'];
    [rewrite Hc; exact Hbyte|].
  simpl. rewrite Hc', Hd', Hc, Hd. auto.
Qed.

Lemma checks_keep_dc_setting_witness :
  curSpeedCode (checks avr_mega false false
                  (polls 30 20000 20000 1000 false) (dc_track avr_mega))
  = 200.
Proof.
  apply (proj1 (checks_keep_dc_setting avr_mega false false
                  (polls 30 20000 20000 1000 false) (dc_track avr_mega)
                  ltac:(vm_compute; split; [discriminate | reflexivity]))).
Defined.

(** X23.  [setDCSignal] neither reads nor changes the power mode: it
    sends the same duty and direction whatever the mode is, also while the
    channel is [OFF] or in [OVERLOAD], writes nothing through
    [IODevice::write], and leaves [powerMode] as it was. *)
Theorem setDCSignal_ignores_power_mode (P : Platform) (speedcode : Z)
    (mode : POWERMODE) (d : MotorDriver) :
  trace (setDCSignal P speedcode (set_powerMode mode d))
  = trace (setDCSignal P speedcode d)
  /\ pwm_writes (trace (setDCSignal P speedcode (set_powerMode mode d)))
     = [(powerPin d, pwm_duty (invertPower d) (Z.land speedcode 127))]
  /\ io_writes (trace (setDCSignal P speedcode d)) = []
  /\ powerMode (state (setDCSignal P speedcode d)) = powerMode d.
Proof.
  split; [reflexivity|]. split; [|split; [|reflexivity]].
  - rewrite setDCSignal_pwm_writes. reflexivity.
  - apply setDCSignal_io_writes.
Qed.
